(** * go-gerber, cmd/font2go/webfont.go: the glyph path parser

    A shallow embedding of [ParsePath], [parseParams] and [atof] together
    with the three regular expressions they are driven by, and the
    properties of the path-data parser proved over that embedding.

    Go strings are byte sequences: they are modelled as [list ascii].
    The [regexp] package decodes its input as UTF-8 and matches rune by
    rune with leftmost-first (backtracking-order) semantics; both are
    modelled below.  [log.Printf] lines are collected in order,
    [log.Fatalf] and a nil dereference end the run with a status. *)

From Stdlib Require Import Ascii String.
From Stdlib Require Import List ZArith NArith Lia ZifyBool Bool Arith.
From Stdlib Require Import Floats.SpecFloat.
Import ListNotations.



(** ** Strings and runes *)

Definition gostring := list ascii.
Definition rune := N.

(** A string literal as a Go string. *)
Definition str (s : string) : gostring := list_ascii_of_string s.

Definition byteval (c : ascii) : N := N_of_ascii c.

(** *** unicode/utf8 *)

Module utf8.

Definition RuneError : rune := 65533%N.
Definition RuneSelf : N := 128%N.

(** The entries of the [first] table: ASCII, invalid, or the size of the
    sequence with the range accepted for its second byte. *)
Variant firstInfo :=
| as_ascii
| xx
| lead (size : nat) (lo hi : N).

Definition locb : N := 128%N.
Definition hicb : N := 191%N.

Definition first (b : N) : firstInfo :=
  if (b <? 128)%N then as_ascii
  else if (b <? 194)%N then xx
  else if (b <? 224)%N then lead 2 locb hicb
  else if (b =? 224)%N then lead 3 160%N hicb
  else if (b <? 237)%N then lead 3 locb hicb
  else if (b =? 237)%N then lead 3 locb 159%N
  else if (b <? 240)%N then lead 3 locb hicb
  else if (b =? 240)%N then lead 4 144%N hicb
  else if (b <? 244)%N then lead 4 locb hicb
  else if (b =? 244)%N then lead 4 locb 143%N
  else xx.

Definition mask2 : N := 31%N.
Definition mask3 : N := 15%N.
Definition mask4 : N := 7%N.
Definition maskx : N := 63%N.

Definition outside (lo hi b : N) : bool := ((b <? lo) || (hi <? b))%N.

(** [DecodeRuneInString]: the first rune of [s] and its width in bytes. *)
Definition DecodeRuneInString (s : gostring) : rune * nat :=
  match s with
  | [] => (RuneError, 0)
  | c0 :: t =>
    let s0 := byteval c0 in
    match first s0 with
    | as_ascii => (s0, 1)
    | xx => (RuneError, 1)
    | lead sz lo hi =>
      if length s <? sz then (RuneError, 1) else
      match t with
      | [] => (RuneError, 1)
      | c1 :: t1 =>
        let s1 := byteval c1 in
        if outside lo hi s1 then (RuneError, 1) else
        if sz <=? 2 then
          (N.lor (N.shiftl (N.land s0 mask2) 6) (N.land s1 maskx), 2)
        else
        match t1 with
        | [] => (RuneError, 1)
        | c2 :: t2 =>
          let s2 := byteval c2 in
          if outside locb hicb s2 then (RuneError, 1) else
          if sz <=? 3 then
            (N.lor (N.lor (N.shiftl (N.land s0 mask3) 12)
                          (N.shiftl (N.land s1 maskx) 6))
                   (N.land s2 maskx), 3)
          else
          match t2 with
          | [] => (RuneError, 1)
          | c3 :: _ =>
            let s3 := byteval c3 in
            if outside locb hicb s3 then (RuneError, 1) else
            (N.lor (N.lor (N.lor (N.shiftl (N.land s0 mask4) 18)
                                 (N.shiftl (N.land s1 maskx) 12))
                          (N.shiftl (N.land s2 maskx) 6))
                   (N.land s3 maskx), 4)
          end
        end
      end
    end
  end.

End utf8.

(** ** regexp *)

Module regexp.

(** [inputString.step]: the rune at the head of the remaining input and
    the input after it; [None] at the end of the text. *)
Definition step (s : gostring) : option (rune * gostring) :=
  match s with
  | [] => None
  | c :: t =>
    if (byteval c <? utf8.RuneSelf)%N then Some (byteval c, t)
    else let (r, w) := utf8.DecodeRuneInString s in Some (r, skipn w s)
  end.

(** Character classes as the patterns of this file write them. *)
Inductive cclass :=
| Chr (c : ascii)
| OneOf (cs : string)
| Perl_d
| Perl_s
| Union (a b : cclass).

Fixpoint runes_of (c : cclass) : list rune :=
  match c with
  | Chr a => [byteval a]
  | OneOf cs => map byteval (list_ascii_of_string cs)
  | Perl_d => [48; 49; 50; 51; 52; 53; 54; 55; 56; 57]%N
  | Perl_s => [9; 10; 12; 13; 32]%N
  | Union a b => runes_of a ++ runes_of b
  end.

(** The orbit of an ASCII pattern rune under [unicode.SimpleFold]: both
    cases of a letter, and the two non-ASCII runes that fold to an ASCII
    letter, U+017F (long s) and U+212A (Kelvin sign). *)
Definition foldOrbit (c : rune) : list rune :=
  let lower := if ((65 <=? c) && (c <=? 90))%N then (c + 32)%N else c in
  if ((97 <=? lower) && (lower <=? 122))%N then
    [lower; (lower - 32)%N] ++
    (if (lower =? 115)%N then [383%N]
     else if (lower =? 107)%N then [8490%N] else [])
  else [c].

Definition class_runes (foldCase : bool) (c : cclass) : list rune :=
  if foldCase then flat_map foldOrbit (runes_of c) else runes_of c.

Definition cmatch (foldCase : bool) (c : cclass) (r : rune) : bool :=
  existsb (N.eqb r) (class_runes foldCase c).

(** The fragment of the syntax the three patterns use.  Repetitions are
    greedy. *)
Inductive regex :=
| BeginText
| Lit (c : cclass)
| Cat (r1 r2 : regex)
| Quest (r : regex)
| Star (r : regex)
| Plus (r : regex)
| Group (i : nat) (r : regex).

Definition captures := list gostring.

Fixpoint setcap (i : nat) (v : gostring) (caps : captures) : captures :=
  match i, caps with
  | _, [] => []
  | 0, _ :: t => v :: t
  | S j, c :: t => c :: setcap j v t
  end.

Definition thread : Type := gostring * captures.
Definition cont := gostring -> captures -> option thread.

(** Greedy iteration of [body]: one more round is preferred to leaving
    the loop, and a round that consumes nothing is not repeated.  The
    fuel is the length of the remaining input, which every round
    shortens. *)
Fixpoint star (body : gostring -> captures -> cont -> option thread)
    (fuel : nat) (s : gostring) (caps : captures) (k : cont) : option thread :=
  match fuel with
  | 0 => k s caps
  | S n =>
    match body s caps (fun s' caps' =>
            if length s' <? length s then star body n s' caps' k else None) with
    | Some t => Some t
    | None => k s caps
    end
  end.

(** Backtracking search in priority order over the text [d], from the
    suffix [s] on; [k] is what remains to be matched. *)
Fixpoint run (foldCase : bool) (d : gostring) (r : regex)
    (s : gostring) (caps : captures) (k : cont) {struct r} : option thread :=
  match r with
  | BeginText => if length s =? length d then k s caps else None
  | Lit c =>
    match step s with
    | Some (x, s') => if cmatch foldCase c x then k s' caps else None
    | None => None
    end
  | Cat r1 r2 =>
    run foldCase d r1 s caps (fun s' caps' => run foldCase d r2 s' caps' k)
  | Quest r1 =>
    match run foldCase d r1 s caps k with
    | Some t => Some t
    | None => k s caps
    end
  | Star r1 => star (run foldCase d r1) (length s) s caps k
  | Plus r1 =>
    run foldCase d r1 s caps (fun s' caps' =>
      star (run foldCase d r1) (length s') s' caps' k)
  | Group i r1 =>
    run foldCase d r1 s caps (fun s' caps' =>
      k s' (setcap i (firstn (length s - length s') s) caps'))
  end.

Fixpoint numSubexp (r : regex) : nat :=
  match r with
  | BeginText | Lit _ => 0
  | Cat r1 r2 => Nat.max (numSubexp r1) (numSubexp r2)
  | Quest r1 | Star r1 | Plus r1 => numSubexp r1
  | Group i r1 => Nat.max i (numSubexp r1)
  end.

Record Regexp := MustCompile { foldCase : bool; expr : regex }.

Definition accept : cont := fun s caps => Some (s, caps).

(** The leftmost match: the first start position, in text order, at
    which the backtracking search succeeds. *)
Fixpoint search (re : Regexp) (d : gostring) (fuel : nat) (s : gostring)
  : list gostring :=
  match run (foldCase re) d (expr re) s
            (repeat [] (S (numSubexp (expr re)))) accept with
  | Some (s', caps) =>
    setcap 0 (firstn (length s - length s') s) caps
  | None =>
    match fuel with
    | 0 => []
    | S n =>
      match step s with
      | Some (_, s') => search re d n s'
      | None => []
      end
    end
  end.

(** [re.FindStringSubmatch(d)]: the text of the match followed by the
    text of each group; the empty slice when there is no match. *)
Definition FindStringSubmatch (re : Regexp) (d : gostring) : list gostring :=
  search re d (length d) d.

End regexp.

Import regexp.

Declare Scope regex_scope.
Delimit Scope regex_scope with re.
Infix "@@" := Cat (at level 60, right associativity) : regex_scope.

(** ** The patterns of webfont.go *)

(** The numeric token of the patterns below: -?\d+\.?\d* *)
Definition number : regex :=
  (Quest (Lit (Chr "-")) @@ Plus (Lit Perl_d) @@
   Quest (Lit (Chr ".")) @@ Star (Lit Perl_d))%re.

(** The class [,\s+] of the patterns below: a comma, a white-space
    character or a plus sign. *)
Definition separator : cclass := Union (Chr ",") (Union Perl_s (Chr "+")).

(** cmdRE, with blanks added between its parts:
    (?i) ^ ([mlhvcsqta]) (?: \s* (-?\d+\.?\d* ) [,\s+]? )+ *)
Definition cmdRE : Regexp :=
  MustCompile true
    (BeginText @@ Group 1 (Lit (OneOf "mlhvcsqta")) @@
     Plus (Star (Lit Perl_s) @@ Group 2 number @@ Quest (Lit separator)))%re.

(** closeRE: (?i) ^ (z) \s* *)
Definition closeRE : Regexp :=
  MustCompile true
    (BeginText @@ Group 1 (Lit (Chr "z")) @@ Star (Lit Perl_s))%re.

(** numRE: ^ \s* (-?\d+\.?\d* ) [,\s+]? *)
Definition numRE : Regexp :=
  MustCompile false
    (BeginText @@ Star (Lit Perl_s) @@ Group 1 number @@
     Quest (Lit separator))%re.

(** ** strconv *)

Module strconv.

Local Open Scope Z_scope.

Definition float64 := spec_float.

Variant NumError := ErrSyntax | ErrRange.

Definition isDigit (c : ascii) : bool :=
  ((48 <=? byteval c) && (byteval c <=? 57))%N.

Definition digitVal (c : ascii) : Z := Z.of_N (byteval c) - 48.

(** The digit loop of [readFloat] on a decimal literal: the digits read
    so far as an integer [mant] and the number [dp] of them that stand
    after the point.  [None] is a syntax error. *)
Fixpoint readDigits (s : gostring) (sawdot sawdigits : bool)
    (mant : Z) (dp : nat) : option (Z * nat) :=
  match s with
  | [] => if sawdigits then Some (mant, dp) else None
  | c :: t =>
    if Ascii.eqb c "." then
      if sawdot then None else readDigits t true sawdigits mant dp
    else if isDigit c then
      readDigits t sawdot true (10 * mant + digitVal c)
                 (if sawdot then S dp else dp)
    else None
  end.

Definition readFloat (s : gostring) : option (bool * Z * nat) :=
  let '(neg, body) :=
    match s with
    | c :: t =>
      if Ascii.eqb c "+" then (false, t)
      else if Ascii.eqb c "-" then (true, t)
      else (false, s)
    | [] => (false, s)
    end in
  match readDigits body false false 0 0 with
  | Some (mant, dp) => Some (neg, mant, dp)
  | None => None
  end.

Definition prec : Z := 53.
Definition emax : Z := 1024.

(** The binary64 number nearest to [mant / 10^dp], ties to even: the
    quotient is taken with at least 56 significant bits and a sticky
    bit, and [binary_normalize] rounds it once. *)
Definition roundDecimal (neg : bool) (mant : Z) (dp : nat) : float64 :=
  if mant =? 0 then S754_zero neg else
  let den := 10 ^ Z.of_nat dp in
  let sh := Z.max 0 (Z.log2 den + 56 - Z.log2 mant) in
  let num := mant * 2 ^ sh in
  let q := num / den in
  let sticky := if num mod den =? 0 then 0 else 1 in
  binary_normalize prec emax
    ((if neg then -1 else 1) * (2 * q + sticky)) (- sh - 1) false.

(** [ParseFloat(s, 64)] on decimal literals without exponent: an optional
    sign, digits, at most one point, at least one digit.  That is every
    string the group of [numRE] can capture (lemma [captured_is_decimal]
    below).  The other literals of strconv (exponents, hexadecimal,
    infinities and NaN) are outside this model and answered as
    [ErrSyntax].  A value more than half an ulp beyond the largest
    float64 is returned as an infinity with [ErrRange]. *)
Definition ParseFloat (s : gostring) : float64 * option NumError :=
  match readFloat s with
  | None => (S754_zero false, Some ErrSyntax)
  | Some (neg, mant, dp) =>
    let f := roundDecimal neg mant dp in
    match f with
    | S754_infinity _ => (f, Some ErrRange)
    | _ => (f, None)
    end
  end.

End strconv.

Import strconv.

(** ** webfont.go *)

(** What [log.Printf] writes, with the arguments of each format. *)
Variant logline :=
| Warning_using_DOrig (unicode : gostring)
| Warning_numZs_nil (unicode : gostring) (numZs : Z)
| Warning_numZs (unicode : gostring) (numZs : Z) (GerberLP : gostring).

(** What [log.Fatalf] writes before it ends the process. *)
Variant fatal :=
| Unknown_path_command (d : gostring)
| unable_to_parse_as_float64 (s : gostring)
| parseParams_unable_to_parse (d : gostring).

(** How a call ends: it returns, [log.Fatalf] exits, a nil pointer is
    dereferenced, or the loop of the model has no fuel left. *)
Variant outcome (A : Type) :=
| Returned (a : A)
| Fatalf (f : fatal)
| NilDereference
| OutOfFuel.

Arguments Returned {A} a.
Arguments Fatalf {A} f.
Arguments NilDereference {A}.
Arguments OutOfFuel {A}.

(** Sequencing: what follows runs only after a call that returned. *)
Definition bind {A B : Type} (x : outcome A) (k : A -> outcome B)
  : outcome B :=
  match x with
  | Returned a => k a
  | Fatalf f => Fatalf f
  | NilDereference => NilDereference
  | OutOfFuel => OutOfFuel
  end.

Notation "x <- e ;; k" := (bind e (fun x => k))
  (at level 61, e at next level, right associativity).

Record PathStep := {
  Command : gostring;
  Parameters : list float64
}.

(** Pointers to strings are options; [PathSteps] holds the steps in the
    order of the slice. *)
Record Glyph := {
  HorizAdvX : Z;
  Unicode : option gostring;
  D : option gostring;
  DOrig : option gostring;
  GerberLP : option gostring;
  PathSteps : list PathStep
}.

Definition set_PathSteps (g : Glyph) (steps : list PathStep) : Glyph :=
  {| HorizAdvX := HorizAdvX g; Unicode := Unicode g; D := D g;
     DOrig := DOrig g; GerberLP := GerberLP g; PathSteps := steps |}.

(** [m[i]] on a slice whose length has been checked. *)
Definition idx (m : list gostring) (i : nat) : gostring := nth i m [].

Definition atof (s : gostring) : outcome float64 :=
  match ParseFloat s with
  | (v, None) => Returned v
  | (_, Some _) => Fatalf (unable_to_parse_as_float64 s)
  end.

(** The loop of [parseParams]; one unit of fuel per iteration. *)
Fixpoint parseParams_loop (fuel : nat) (d : gostring) (result : list float64)
  : outcome (list float64) :=
  match d with
  | [] => Returned result
  | _ :: _ =>
    match fuel with
    | 0 => OutOfFuel
    | S fuel' =>
      let m := FindStringSubmatch numRE d in
      if length m =? 2 then
        v <- atof (idx m 1) ;;
        parseParams_loop fuel' (skipn (length (idx m 0)) d) (result ++ [v])
      else Fatalf (parseParams_unable_to_parse d)
    end
  end.

Definition parseParams (d : gostring) : outcome (list float64) :=
  parseParams_loop (length d) d [].

(** The state of the loop of [ParsePath]: the text left, the steps of
    the glyph and the number of close commands seen. *)
Record scanner := {
  rest : gostring;
  steps : list PathStep;
  numZs : Z
}.

(** One iteration of the loop of [ParsePath] on a non-empty [rest]. *)
Definition iteration (st : scanner) : outcome scanner :=
  let d := rest st in
  let m := FindStringSubmatch closeRE d in
  if length m =? 2 then
    Returned {| rest := skipn (length (idx m 0)) d;
                steps := steps st ++
                         [{| Command := idx m 1; Parameters := [] |}];
                numZs := numZs st + 1 |}
  else
    let m := FindStringSubmatch cmdRE d in
    if 3 <=? length m then
      ps <- parseParams (skipn 1 (idx m 0)) ;;
      Returned {| rest := skipn (length (idx m 0)) d;
                  steps := steps st ++
                           [{| Command := idx m 1; Parameters := ps |}];
                  numZs := numZs st |}
    else Fatalf (Unknown_path_command d).

(** The loop of [ParsePath]: the state it stops in and how it stops. *)
Fixpoint scan (fuel : nat) (st : scanner) : scanner * outcome unit :=
  match rest st with
  | [] => (st, Returned tt)
  | _ :: _ =>
    match fuel with
    | 0 => (st, OutOfFuel)
    | S fuel' =>
      match iteration st with
      | Returned st' => scan fuel' st'
      | Fatalf f => (st, Fatalf f)
      | NilDereference => (st, NilDereference)
      | OutOfFuel => (st, OutOfFuel)
      end
    end
  end.

(** A finished call: how it ended, the glyph as the call left it and the
    lines logged, in order. *)
Record execution := {
  ending : outcome unit;
  glyph : option Glyph;
  logged : list logline
}.

(** The check after the loop: the number of close commands against the
    length of [GerberLP]. *)
Definition validate (g : Glyph) (numZs : Z) (log : list logline) : execution :=
  let differs :=
    match GerberLP g with
    | None => true
    | Some lp => negb (Z.of_nat (length lp) =? numZs)%Z
    end in
  if (1 <? numZs)%Z && differs then
    match GerberLP g with
    | None =>
      match Unicode g with
      | None => {| ending := NilDereference; glyph := Some g; logged := log |}
      | Some u =>
        {| ending := Returned tt; glyph := Some g;
           logged := log ++ [Warning_numZs_nil u numZs] |}
      end
    | Some lp =>
      match Unicode g with
      | None => {| ending := NilDereference; glyph := Some g; logged := log |}
      | Some u =>
        {| ending := Returned tt; glyph := Some g;
           logged := log ++ [Warning_numZs u numZs lp] |}
      end
    end
  else {| ending := Returned tt; glyph := Some g; logged := log |}.

(** The loop and the check after it, on the text [d] chosen for [g]. *)
Definition parse (g : Glyph) (d : gostring) (log : list logline) : execution :=
  let '(st, e) := scan (length d)
                    {| rest := d; steps := PathSteps g; numZs := 0 |} in
  let g' := set_PathSteps g (steps st) in
  match e with
  | Returned _ => validate g' (numZs st) log
  | _ => {| ending := e; glyph := Some g'; logged := log |}
  end.

(** [func (g *Glyph) ParsePath()]; the receiver is a pointer, [None]
    when nil. *)
Definition ParsePath (gp : option Glyph) : execution :=
  match gp with
  | None => {| ending := Returned tt; glyph := None; logged := [] |}
  | Some g =>
    match D g with
    | None => {| ending := Returned tt; glyph := Some g; logged := [] |}
    | Some d =>
      match DOrig g with
      | Some (c :: o) =>
        match Unicode g with
        | None => {| ending := NilDereference; glyph := Some g; logged := [] |}
        | Some u => parse g (c :: o) [Warning_using_DOrig u]
        end
      | _ => parse g d []
      end
    end
  end.

(** * Definitions for the statements and the proofs *)

Local Open Scope regex_scope.

(** ** Bytes and runs of bytes *)

(** What the masks of the decoder leave of a byte, by enumeration of
    the byte. *)
Definition payload_ok (b : N) : bool :=
  (implb ((194 <=? b) && (b <? 224)) (2 <=? N.land b utf8.mask2) &&
   implb ((225 <=? b) && (b <? 240)) (1 <=? N.land b utf8.mask3) &&
   implb ((241 <=? b) && (b <? 245)) (1 <=? N.land b utf8.mask4) &&
   implb ((144 <=? b) && (b <=? 191)) (16 <=? N.land b utf8.maskx) &&
   (b <? 256))%N.

(** A class none of whose runes lies outside ASCII. *)
Definition ascii_only (f : bool) (cls : cclass) : Prop :=
  forall r, cmatch f cls r = true -> (r < 128)%N.

(** The class as a predicate on bytes. *)
Definition inclass (f : bool) (cls : cclass) (c : ascii) : bool :=
  cmatch f cls (byteval c).

(** The bytes of the class \s: tab, line feed, form feed, carriage
    return and space. *)
Definition isSpace (c : ascii) : bool :=
  existsb (Ascii.eqb c) ["009"; "010"; "012"; "013"; " "]%char.

(** The bytes of the class of separators: comma, white space, plus. *)
Definition isSep (c : ascii) : bool :=
  Ascii.eqb c "," || isSpace c || Ascii.eqb c "+".

(** The bytes the group of closeRE matches. *)
Definition isCloseLetter (c : ascii) : bool :=
  Ascii.eqb c "z" || Ascii.eqb c "Z".

(** The ASCII bytes the first group of cmdRE matches. *)
Definition isCmdLetter (c : ascii) : bool :=
  existsb (Ascii.eqb c) (str "mlhvcsqtaMLHVCSQTA").

(** Every byte of [s] satisfies [p]. *)
Definition all (p : ascii -> bool) (s : gostring) : Prop :=
  forallb p s = true.

(** The text is empty or starts with a byte that does not satisfy [p]. *)
Definition stops (p : ascii -> bool) (s : gostring) : Prop :=
  match s with [] => True | c :: _ => p c = false end.

(** The text after the longest prefix of bytes that satisfy [p]. *)
Fixpoint dropWhile (p : ascii -> bool) (s : gostring) : gostring :=
  match s with
  | c :: t => if p c then dropWhile p t else s
  | [] => []
  end.

(** The longest prefix of bytes that satisfy [p]. *)
Fixpoint takeWhile (p : ascii -> bool) (s : gostring) : gostring :=
  match s with
  | c :: t => if p c then c :: takeWhile p t else []
  | [] => []
  end.

(** ** The grammar of a numeric run *)

(** The numeric token of the specification: an optional leading minus,
    one or more decimal digits, an optional dot followed by zero or more
    digits. *)
Definition numeric_token (tok : gostring) : Prop :=
  exists sign ip fr,
    tok = sign ++ ip ++ fr /\
    (sign = [] \/ sign = ["-"%char]) /\
    ip <> [] /\ all isDigit ip /\
    (fr = [] \/ exists fp, fr = "."%char :: fp /\ all isDigit fp).

(** The bytes a token of the grammar is made of. *)
Definition token_byte (c : ascii) : bool :=
  isDigit c || Ascii.eqb c "-" || Ascii.eqb c ".".

(** The token has a decimal point. *)
Definition has_dot (tok : gostring) : bool := existsb (Ascii.eqb ".") tok.

(** The text [r] after a token does not continue it. *)
Definition ends_number (tok r : gostring) : Prop :=
  match r with
  | [] => True
  | c :: _ => isDigit c = false /\ (has_dot tok = true \/ c <> "."%char)
  end.

(** At most one separator byte. *)
Definition separator_opt (sep : gostring) : Prop :=
  sep = [] \/ exists c, sep = [c] /\ isSep c = true.

(** The text [r] after an item does not continue it. *)
Definition ends_item (tok sep r : gostring) : Prop :=
  match sep with
  | [] => ends_number tok r /\
          match r with [] => True | c :: _ => isSep c = false end
  | _ :: _ => True
  end.

(** The item of the specification: a numeric token, optionally followed
    by a single separator that is a comma or a white-space character. *)
Definition spec_item (x : gostring) : Prop :=
  exists tok sep,
    x = tok ++ sep /\ numeric_token tok /\
    (sep = [] \/
     exists c, sep = [c] /\ (c = ","%char \/ isSpace c = true)).

(** One item of a numeric run: leading white space, the token and the
    separator after it. *)
Record numitem := {
  lead : gostring;
  token : gostring;
  trail : gostring
}.

(** The text of an item and of a run of items. *)
Definition item_text (it : numitem) : gostring :=
  lead it ++ token it ++ trail it.

Definition run_text (items : list numitem) : gostring :=
  concat (map item_text items).

(** White space, then a token of the grammar, then at most one
    separator. *)
Definition valid_item (it : numitem) : Prop :=
  all isSpace (lead it) /\ numeric_token (token it) /\
  separator_opt (trail it).

(** The items are valid and each one ends where the scanner ends it:
    the text that follows an item without separator does not continue
    its token.  [r] is the text after the last item. *)
Fixpoint separated (items : list numitem) (r : gostring) : Prop :=
  match items with
  | [] => True
  | it :: rest =>
    valid_item it /\
    ends_item (token it) (trail it) (run_text rest ++ r) /\
    separated rest r
  end.

(** The last token of a run, [tok0] when the run is empty. *)
Definition last_token (items : list numitem) (tok0 : gostring) : gostring :=
  last (map token items) tok0.

(** ** Greedy scanners for the patterns *)

(** After the integer digits: an optional point and more digits. *)
Definition scanFrac (s : gostring) : gostring :=
  dropWhile isDigit
    match s with
    | c :: t => if Ascii.eqb c "." then t else s
    | [] => s
    end.

(** The text after the longest token without sign at the head of [s]. *)
Definition scanUnsigned (s : gostring) : option gostring :=
  match s with
  | c :: t => if isDigit c then Some (scanFrac (dropWhile isDigit t)) else None
  | [] => None
  end.

(** The text after the longest numeric token at the head of [s]. *)
Definition scanNumber (s : gostring) : option gostring :=
  match s with
  | c :: t => if Ascii.eqb c "-" then scanUnsigned t else scanUnsigned s
  | [] => None
  end.

(** The text after at most one separator byte. *)
Definition dropSep (s : gostring) : gostring :=
  match s with
  | c :: t => if isSep c then t else s
  | [] => s
  end.

(** One item of a numeric run: white space, a token, one separator.
    The three results are the text at the token, after the token and
    after the separator. *)
Definition scanItem (s : gostring) : option (gostring * gostring * gostring) :=
  let s1 := dropWhile isSpace s in
  match scanNumber s1 with
  | Some s2 => Some (s1, s2, dropSep s2)
  | None => None
  end.

(** The token between the text [s1] that starts with it and the text
    [s2] after it. *)
Definition token_at (s1 s2 : gostring) : gostring :=
  firstn (length s1 - length s2) s1.

(** The items of a numeric run from [s] on: the text after the last one
    and the last token, [tok] when there is none. *)
Fixpoint scanRun (fuel : nat) (s tok : gostring) : gostring * gostring :=
  match fuel with
  | 0 => (s, tok)
  | S n =>
    match scanItem s with
    | Some (s1, s2, s3) => scanRun n s3 (token_at s1 s2)
    | None => (s, tok)
    end
  end.

(** The parts of [number], named for the proofs. *)
Definition fraction : regex :=
  (Quest (Lit (Chr ".")) @@ Star (Lit Perl_d))%re.

Definition unsigned : regex := (Plus (Lit Perl_d) @@ fraction)%re.

(** One item of a numeric run, with its token in group [i]. *)
Definition item (i : nat) : regex :=
  (Star (Lit Perl_s) @@ Group i number @@ Quest (Lit separator))%re.

(** ** Conversion of the tokens *)

(** The float64 [atof] returns for a token that converts. *)
Definition value (tok : gostring) : float64 := fst (ParseFloat tok).

(** The token converts: [ParseFloat] reports no error. *)
Definition converts (tok : gostring) : Prop := snd (ParseFloat tok) = None.

(** [atof] on each token in turn, as [parseParams] calls it. *)
Fixpoint atofs (toks : list gostring) (result : list float64)
  : outcome (list float64) :=
  match toks with
  | [] => Returned result
  | t :: ts =>
    v <- atof t ;; atofs ts (result ++ [v])
  end.

(** ** The call and its loop *)

(** A scanner state with [pre] in front of its steps. *)
Definition with_steps (pre : list PathStep) (st : scanner) : scanner :=
  {| rest := rest st; steps := pre ++ steps st; numZs := numZs st |}.

(** The state in which the loop starts on the text [d]. *)
Definition start (g : Glyph) (d : gostring) : scanner :=
  {| rest := d; steps := PathSteps g; numZs := 0 |}.

(** The state of the loop of [ParsePath] after [k] more iterations;
    [None] when it stops before. *)
Fixpoint advance (k : nat) (st : scanner) : option scanner :=
  match k with
  | 0 => Some st
  | S k' =>
    match rest st with
    | [] => None
    | _ :: _ =>
      match iteration st with
      | Returned st' => advance k' st'
      | _ => None
      end
    end
  end.

(** The step of a command letter with its parameters. *)
Definition command_step (c : ascii) (ps : list float64) : PathStep :=
  {| Command := [c]; Parameters := ps |}.

(** A close command in the text: the letter and the white space after
    it. *)
Record closing := {
  letter : ascii;
  blanks : gostring
}.

(** The text of a sequence of close commands. *)
Definition closing_text (cs : list closing) : gostring :=
  concat (map (fun c => letter c :: blanks c) cs).

(** The letter is z or Z and only white space follows it. *)
Definition valid_closing (c : closing) : Prop :=
  isCloseLetter (letter c) = true /\ all isSpace (blanks c).

(** The step appended for a close command. *)
Definition close_step (c : closing) : PathStep :=
  command_step (letter c) [].

(** The override is used: [DOrig] is present and not empty. *)
Definition overridden (g : Glyph) : bool :=
  match DOrig g with
  | Some (_ :: _) => true
  | _ => false
  end.

(** The text [ParsePath] parses for [g], when it parses one. *)
Definition effective_path (g : Glyph) : option gostring :=
  match D g with
  | None => None
  | Some d => if overridden g then DOrig g else Some d
  end.

(** The line logged when the override is used. *)
Definition notice (g : Glyph) : list logline :=
  match Unicode g with
  | Some u => if overridden g then [Warning_using_DOrig u] else []
  | None => []
  end.

(** The call gets to its loop: the override is not used, or [Unicode]
    is there for the line that reports its use. *)
Definition reaches_loop (g : Glyph) : Prop :=
  overridden g = true -> Unicode g <> None.

(** The steps of the glyph a call leaves. *)
Definition steps_of (e : execution) : list PathStep :=
  match glyph e with
  | Some g => PathSteps g
  | None => []
  end.

(** The glyph with other path strings. *)
Definition with_paths (g : Glyph) (d o : option gostring) : Glyph :=
  {| HorizAdvX := HorizAdvX g; Unicode := Unicode g; D := d; DOrig := o;
     GerberLP := GerberLP g; PathSteps := PathSteps g |}.

(** The condition of the check after the loop. *)
Definition polarity_differs (lp : option gostring) (numZs : Z) : bool :=
  (1 <? numZs)%Z &&
  match lp with
  | None => true
  | Some l => negb (Z.of_nat (length l) =? numZs)%Z
  end.

(** The line the check after the loop logs when its condition holds. *)
Definition polarity_warning (u : gostring) (lp : option gostring) (numZs : Z)
  : list logline :=
  if polarity_differs lp numZs then
    [match lp with
     | None => Warning_numZs_nil u numZs
     | Some l => Warning_numZs u numZs l
     end]
  else [].

(** The line is the notice of the use of the override. *)
Definition is_notice (l : logline) : bool :=
  match l with
  | Warning_using_DOrig _ => true
  | _ => false
  end.

(** ** Whole paths *)

(** One command of a path text: a close command, or a command letter
    with its numeric run. *)
Inductive segment :=
| Closing (c : closing)
| Drawing (c : ascii) (items : list numitem).

Definition segment_text (s : segment) : gostring :=
  match s with
  | Closing c => letter c :: blanks c
  | Drawing c items => c :: run_text items
  end.

(** The text of a sequence of commands. *)
Definition path_text (segs : list segment) : gostring :=
  concat (map segment_text segs).

(** A close command is z or Z and white space; the other commands are
    one of the eighteen letters and a non-empty run of items, each one
    ending where the scanner ends it. *)
Definition valid_segment (s : segment) : Prop :=
  match s with
  | Closing c => valid_closing c
  | Drawing c items =>
    isCmdLetter c = true /\ items <> [] /\ separated items []
  end.

(** The numeric tokens of a command and of a sequence of commands. *)
Definition segment_tokens (s : segment) : list gostring :=
  match s with
  | Closing _ => []
  | Drawing _ items => map token items
  end.

Definition path_tokens (segs : list segment) : list gostring :=
  concat (map segment_tokens segs).

(** The step appended for a command. *)
Definition segment_step (s : segment) : PathStep :=
  match s with
  | Closing c => close_step c
  | Drawing c items => command_step c (map value (map token items))
  end.

Definition is_closing (s : segment) : bool :=
  match s with
  | Closing _ => true
  | Drawing _ _ => false
  end.

(** The number of close commands among the commands. *)
Definition closings (segs : list segment) : Z :=
  Z.of_nat (length (filter is_closing segs)).

(** The text is empty or starts with one of the twenty command
    letters. *)
Definition command_head (r : gostring) : Prop :=
  match r with
  | [] => True
  | c :: _ => isCloseLetter c || isCmdLetter c = true
  end.

(** Neither an infinity nor a NaN. *)
Definition isFinite (v : float64) : bool :=
  match v with
  | S754_zero _ | S754_finite _ _ _ => true
  | S754_infinity _ | S754_nan => false
  end.

(** The shape of the steps [ParsePath] appends: the command is one of
    the twenty letters, a close command has no parameters and every
    other command has at least one, all of them finite. *)
Definition canonical_step (s : PathStep) : Prop :=
  exists c,
    Command s = [c] /\
    ((isCloseLetter c = true /\ Parameters s = []) \/
     (isCmdLetter c = true /\ Parameters s <> [] /\
      forallb isFinite (Parameters s) = true)).

(** [ParsePath] on the glyph with [d] as its path and no override. *)
Definition ParsePath_on (g : Glyph) (d : gostring) : execution :=
  ParsePath (Some (with_paths g (Some d) None)).

(** ** Inputs of the examples *)

(** A glyph with no steps yet, for the examples. *)
Definition glyph_of (u d o lp : option gostring) : Glyph :=
  {| HorizAdvX := 0; Unicode := u; D := d; DOrig := o; GerberLP := lp;
     PathSteps := [] |}.

(** A decimal token too large for a float64: 1 followed by 309 zeros. *)
Definition overflowing : gostring := "1"%char :: repeat "0"%char 309.

(** U+017F, LATIN SMALL LETTER LONG S, in UTF-8. *)
Definition long_s : gostring := ["197"; "191"]%char.

(** * Properties *)

(** ** Bytes and runes *)

Ltac bytes c :=
  let b0 := fresh in let b1 := fresh in let b2 := fresh in
  let b3 := fresh in let b4 := fresh in let b5 := fresh in
  let b6 := fresh in let b7 := fresh in
  destruct c as [b0 b1 b2 b3 b4 b5 b6 b7];
  destruct b0, b1, b2, b3, b4, b5, b6, b7.

Lemma lor_ge_l (a b : N) : (a <= N.lor a b)%N.
Proof.
  assert (Hsub : N.land (N.lor a b) a = a).
  { apply N.bits_inj; intro n.
    rewrite N.land_spec, N.lor_spec.
    destruct (N.testbit a n), (N.testbit b n); reflexivity. }
  assert (Hd : N.land (N.land (N.lor a b) a) (N.ldiff (N.lor a b) a) = 0%N).
  { apply N.bits_inj; intro n.
    rewrite !N.land_spec, N.ldiff_spec, N.lor_spec, N.bits_0.
    destruct (N.testbit a n), (N.testbit b n); reflexivity. }
  assert (Hx : N.lxor (N.land (N.lor a b) a) (N.ldiff (N.lor a b) a)
               = N.lor a b).
  { apply N.bits_inj; intro n.
    rewrite N.lxor_spec, N.land_spec, N.ldiff_spec, N.lor_spec.
    destruct (N.testbit a n), (N.testbit b n); reflexivity. }
  pose proof (N.add_nocarry_lxor _ _ Hd) as H.
  rewrite Hx, Hsub in H. lia.
Qed.

Lemma lor_ge_r (a b : N) : (b <= N.lor a b)%N.
Proof. rewrite N.lor_comm. apply lor_ge_l. Qed.

Lemma payload_ok_all (c : ascii) : payload_ok (byteval c) = true.
Proof. bytes c; vm_compute; reflexivity. Qed.

Lemma payload_bounds (c : ascii) :
  let b := byteval c in
  ((194 <= b < 224 -> 2 <= N.land b utf8.mask2) /\
   (225 <= b < 240 -> 1 <= N.land b utf8.mask3) /\
   (241 <= b < 245 -> 1 <= N.land b utf8.mask4) /\
   (144 <= b <= 191 -> 16 <= N.land b utf8.maskx) /\
   b < 256)%N.
Proof.
  intro b. pose proof (payload_ok_all c) as H. fold b in H.
  unfold payload_ok in H.
  generalize dependent (N.land b utf8.mask2).
  generalize dependent (N.land b utf8.mask3).
  generalize dependent (N.land b utf8.mask4).
  generalize dependent (N.land b utf8.maskx).
  intros. lia.
Qed.

Ltac use_or_clear H :=
  first [ specialize (H ltac:(lia)) | clear H ].

(** A sequence that starts with a byte outside ASCII decodes to a rune
    outside ASCII, of width one to four. *)
Lemma decode_nonascii (c : ascii) (t : gostring) :
  (128 <= byteval c)%N ->
  (128 <= fst (utf8.DecodeRuneInString (c :: t)))%N /\
  1 <= snd (utf8.DecodeRuneInString (c :: t)) <= 4.
Proof.
  intro Hc. unfold utf8.DecodeRuneInString.
  pose proof (payload_bounds c) as Hp. cbv zeta in Hp.
  set (s0 := byteval c) in *.
  destruct Hp as (P2 & P3 & P4 & _ & _).
  assert (Herr : (128 <= fst (utf8.RuneError, 1))%N /\
                 1 <= snd (utf8.RuneError, 1) <= 4)
    by (cbn; unfold utf8.RuneError; split; lia).
  unfold utf8.first.
  repeat match goal with
         | |- context [(?x <? ?y)%N] => destruct (N.ltb_spec x y)
         | |- context [(?x =? ?y)%N] => destruct (N.eqb_spec x y)
         end; try lia; try exact Herr.
  all: use_or_clear P2; use_or_clear P3; use_or_clear P4.
  all: cbn [Nat.leb].
  all: repeat first
    [ exact Herr
    | match goal with
      | |- context [if ?b then _ else _] => destruct b eqn:?
      | |- context [match ?l with [] => _ | _ :: _ => _ end] => destruct l
      end ].
  all: cbn [fst snd]; (split; [|lia]).
  all: repeat match goal with
       | Ho : utf8.outside _ _ (byteval ?c1) = false |- _ =>
         unfold utf8.outside, utf8.locb, utf8.hicb in Ho;
         let Hpb := fresh "Hpb" in
         pose proof (payload_bounds c1) as Hpb; cbv zeta in Hpb;
         destruct Hpb as (_ & _ & _ & Hpb & _);
         use_or_clear Hpb; clear Ho
       end.
  all: rewrite ?N.shiftl_mul_pow2.
  all: change (2^6)%N with 64%N; change (2^12)%N with 4096%N;
       change (2 ^ 18)%N with 262144%N.
  all: repeat match goal with
       | |- context [N.lor ?a ?b] =>
         pose proof (lor_ge_l a b); pose proof (lor_ge_r a b);
         generalize dependent (N.lor a b); intros
       | H : context [N.lor ?a ?b] |- _ =>
         pose proof (lor_ge_l a b); pose proof (lor_ge_r a b);
         generalize dependent (N.lor a b); intros
       end.
  all: repeat match goal with
       | H : context [N.land ?a ?b] |- _ =>
         generalize dependent (N.land a b); intros
       end.
  all: lia.
Qed.

Lemma step_ascii (c : ascii) (t : gostring) :
  (byteval c < 128)%N -> step (c :: t) = Some (byteval c, t).
Proof.
  intro H. unfold step, utf8.RuneSelf.
  destruct (N.ltb_spec (byteval c) 128); [reflexivity|lia].
Qed.

Lemma step_nonascii (c : ascii) (t : gostring) :
  (128 <= byteval c)%N ->
  exists r s', step (c :: t) = Some (r, s') /\ (128 <= r)%N /\
               length s' <= length t.
Proof.
  intro H. unfold step, utf8.RuneSelf.
  destruct (N.ltb_spec (byteval c) 128); [lia|].
  destruct (decode_nonascii c t H) as [Hr Hw].
  destruct (utf8.DecodeRuneInString (c :: t)) as [r w]. cbn [fst snd] in *.
  exists r, (skipn w (c :: t)). repeat split; [exact Hr|].
  rewrite length_skipn. cbn [length]. lia.
Qed.

Lemma step_shorter (s s' : gostring) (r : rune) :
  step s = Some (r, s') -> length s' < length s.
Proof.
  destruct s as [|c t]; [discriminate|].
  destruct (N.lt_ge_cases (byteval c) 128) as [H|H].
  - rewrite (step_ascii _ _ H). intros [= <- <-]. cbn. lia.
  - destruct (step_nonascii c t H) as (r' & s'' & -> & _ & Hl).
    intros [= <- <-]. cbn. lia.
Qed.

(** ** Runs of bytes *)

Lemma dropWhile_length p s : length (dropWhile p s) <= length s.
Proof. induction s as [|c t IH]; cbn; [lia|]. destruct (p c); cbn; lia. Qed.

Lemma dropWhile_ext p q s :
  (forall c, p c = q c) -> dropWhile p s = dropWhile q s.
Proof.
  intro H. induction s as [|c t IH]; cbn; [reflexivity|].
  rewrite H, IH. reflexivity.
Qed.

Lemma take_drop p s : takeWhile p s ++ dropWhile p s = s.
Proof.
  induction s as [|c t IH]; cbn; [reflexivity|].
  destruct (p c); cbn; [rewrite IH|]; reflexivity.
Qed.

Lemma firstn_suffix (a b : gostring) :
  firstn (length (a ++ b) - length b) (a ++ b) = a.
Proof.
  rewrite length_app, Nat.add_sub. rewrite firstn_app, Nat.sub_diag.
  rewrite firstn_all. cbn. apply app_nil_r.
Qed.

Lemma skipn_takeWhile p s : skipn (length (takeWhile p s)) s = dropWhile p s.
Proof.
  rewrite <- (take_drop p s) at 2.
  rewrite skipn_app, Nat.sub_diag, skipn_all. reflexivity.
Qed.

Lemma all_cons p c s : all p (c :: s) <-> p c = true /\ all p s.
Proof. unfold all. cbn [forallb]. apply andb_true_iff. Qed.

Lemma all_app p a b : all p (a ++ b) <-> all p a /\ all p b.
Proof. unfold all. rewrite forallb_app. apply andb_true_iff. Qed.

Lemma dropWhile_all p a b : all p a -> dropWhile p (a ++ b) = dropWhile p b.
Proof.
  induction a as [|c a IH]; intro H; [reflexivity|].
  apply all_cons in H as [Hc Ha]. cbn. rewrite Hc. apply IH, Ha.
Qed.

Lemma dropWhile_stops p s : stops p s -> dropWhile p s = s.
Proof. destruct s as [|c t]; cbn; [reflexivity|]. intros ->. reflexivity. Qed.

Lemma takeWhile_all p s : all p (takeWhile p s).
Proof.
  induction s as [|c t IH]; [reflexivity|]. cbn.
  destruct (p c) eqn:E; [|reflexivity]. apply all_cons. split; assumption.
Qed.

Lemma dropWhile_is_stop p s : stops p (dropWhile p s).
Proof.
  induction s as [|c t IH]; [exact I|]. cbn.
  destruct (p c) eqn:E; [exact IH|exact E].
Qed.

Lemma last_default (A : Type) (l : list A) (x d d' : A) :
  last (x :: l) d = last (x :: l) d'.
Proof.
  revert x. induction l as [|y l IH]; intro x; [reflexivity|].
  change (last (y :: l) d = last (y :: l) d'). apply IH.
Qed.

(** ** The classes of the patterns *)

Lemma ascii_only_dec (f : bool) (cls : cclass) :
  forallb (fun x => (x <? 128)%N) (class_runes f cls) = true ->
  ascii_only f cls.
Proof.
  intros H r Hr. unfold cmatch in Hr.
  apply existsb_exists in Hr as (x & Hx & Heq).
  apply N.eqb_eq in Heq. subst x.
  rewrite forallb_forall in H. specialize (H _ Hx). lia.
Qed.

Lemma inclass_digit f c : inclass f Perl_d c = isDigit c.
Proof. destruct f; bytes c; reflexivity. Qed.

Lemma inclass_space f c : inclass f Perl_s c = isSpace c.
Proof. destruct f; bytes c; reflexivity. Qed.

Lemma inclass_sep f c : inclass f separator c = isSep c.
Proof. destruct f; bytes c; reflexivity. Qed.

Lemma inclass_minus f c : inclass f (Chr "-") c = Ascii.eqb c "-".
Proof. destruct f; bytes c; reflexivity. Qed.

Lemma inclass_dot f c : inclass f (Chr ".") c = Ascii.eqb c ".".
Proof. destruct f; bytes c; reflexivity. Qed.

Lemma inclass_z c : inclass true (Chr "z") c = isCloseLetter c.
Proof. bytes c; reflexivity. Qed.

Lemma inclass_cmd c :
  inclass true (OneOf "mlhvcsqta") c = isCmdLetter c.
Proof. bytes c; reflexivity. Qed.

Lemma ascii_only_digit f : ascii_only f Perl_d.
Proof. apply ascii_only_dec. destruct f; reflexivity. Qed.

Lemma ascii_only_space f : ascii_only f Perl_s.
Proof. apply ascii_only_dec. destruct f; reflexivity. Qed.

Lemma ascii_only_sep f : ascii_only f separator.
Proof. apply ascii_only_dec. destruct f; reflexivity. Qed.

Lemma ascii_only_minus f : ascii_only f (Chr "-").
Proof. apply ascii_only_dec. destruct f; reflexivity. Qed.

Lemma ascii_only_dot f : ascii_only f (Chr ".").
Proof. apply ascii_only_dec. destruct f; reflexivity. Qed.

Lemma ascii_only_z : ascii_only true (Chr "z").
Proof. apply ascii_only_dec. reflexivity. Qed.

Lemma dropWhile_digit f s :
  dropWhile (inclass f Perl_d) s = dropWhile isDigit s.
Proof. apply dropWhile_ext, inclass_digit. Qed.

Lemma dropWhile_space f s :
  dropWhile (inclass f Perl_s) s = dropWhile isSpace s.
Proof. apply dropWhile_ext, inclass_space. Qed.

Lemma minus_not_digit c : Ascii.eqb c "-" = true -> isDigit c = false.
Proof. intro H. apply Ascii.eqb_eq in H. subst c. reflexivity. Qed.

Lemma digit_not_dot c : isDigit c = true -> Ascii.eqb c "." = false.
Proof. bytes c; vm_compute; intro; (discriminate || reflexivity). Qed.

Lemma digit_not_minus c : isDigit c = true -> Ascii.eqb c "-" = false.
Proof. bytes c; vm_compute; intro; (discriminate || reflexivity). Qed.

Lemma digit_not_space c : isDigit c = true -> isSpace c = false.
Proof. bytes c; vm_compute; intro; (discriminate || reflexivity). Qed.

Lemma sep_not_number c :
  isSep c = true -> isDigit c = false /\ c <> "."%char.
Proof.
  bytes c; vm_compute; intro; try discriminate; split;
    (reflexivity || discriminate).
Qed.

Lemma cmd_letter_ascii c :
  isCmdLetter c = true ->
  (byteval c <? 128)%N = true /\ isCloseLetter c = false.
Proof.
  bytes c; vm_compute; intro; try discriminate; split; reflexivity.
Qed.

Lemma close_letter_facts c :
  isCloseLetter c = true -> isSpace c = false.
Proof. bytes c; vm_compute; intro; (discriminate || reflexivity). Qed.

(** ** The greedy scanners and the grammar *)

Lemma scanFrac_length s : length (scanFrac s) <= length s.
Proof.
  unfold scanFrac. destruct s as [|c t]; [cbn; lia|].
  destruct (Ascii.eqb c ".").
  - pose proof (dropWhile_length isDigit t). cbn [length]. lia.
  - apply dropWhile_length.
Qed.

Lemma scanUnsigned_shorter s r : scanUnsigned s = Some r -> length r < length s.
Proof.
  destruct s as [|c t]; [discriminate|]. cbn [scanUnsigned].
  destruct (isDigit c); [|discriminate]. intros [= <-].
  pose proof (scanFrac_length (dropWhile isDigit t)).
  pose proof (dropWhile_length isDigit t). cbn [length]. lia.
Qed.

Lemma scanNumber_shorter s r : scanNumber s = Some r -> length r < length s.
Proof.
  destruct s as [|c t]; [discriminate|]. cbn [scanNumber].
  destruct (Ascii.eqb c "-"); intro H; apply scanUnsigned_shorter in H;
    cbn [length] in *; lia.
Qed.

Lemma dropSep_length s : length (dropSep s) <= length s.
Proof.
  destruct s as [|c t]; [cbn; lia|]. cbn [dropSep].
  destruct (isSep c); cbn [length]; lia.
Qed.

Lemma scanItem_shorter s s1 s2 s3 :
  scanItem s = Some (s1, s2, s3) ->
  length s3 <= length s2 /\ length s2 < length s1 /\ length s1 <= length s.
Proof.
  unfold scanItem. destruct (scanNumber _) as [r|] eqn:E; [|discriminate].
  intros [= <- <- <-]. apply scanNumber_shorter in E.
  pose proof (dropSep_length r). pose proof (dropWhile_length isSpace s). lia.
Qed.

Lemma space_not_number (c : ascii) (t : gostring) :
  isSpace c = true -> scanNumber (c :: t) = None.
Proof.
  intro H. cbn [scanNumber scanUnsigned].
  assert (E : Ascii.eqb c "-" = false /\ isDigit c = false).
  { revert H.
    bytes c; vm_compute; intro; (discriminate || (split; reflexivity)). }
  destruct E as [-> ->]. reflexivity.
Qed.

Lemma scanRun_length n s tok : length (fst (scanRun n s tok)) <= length s.
Proof.
  revert s tok.
  induction n as [|n IH]; intros s tok; cbn [scanRun]; [cbn; lia|].
  destruct (scanItem s) as [[[s1 s2] s3]|] eqn:E; [|cbn; lia].
  apply scanItem_shorter in E. specialize (IH s3 (token_at s1 s2)). lia.
Qed.

Lemma has_dot_app a b : has_dot (a ++ b) = has_dot a || has_dot b.
Proof. apply existsb_app. Qed.

Lemma digits_no_dot s : all isDigit s -> has_dot s = false.
Proof.
  induction s as [|c t IH]; intro H; [reflexivity|].
  apply all_cons in H as [Hc Ht]. specialize (IH Ht).
  unfold has_dot in *. cbn [existsb]. rewrite IH, orb_false_r.
  rewrite Ascii.eqb_sym. apply digit_not_dot, Hc.
Qed.

Lemma scanFrac_complete fr r :
  (fr = [] \/ exists fp, fr = "."%char :: fp /\ all isDigit fp) ->
  stops isDigit r ->
  (fr = [] -> stops (fun c => Ascii.eqb c ".") r) ->
  scanFrac (fr ++ r) = r.
Proof.
  intros [->|(fp & -> & Hfp)] Hr Hd; unfold scanFrac.
  - cbn [app]. specialize (Hd eq_refl).
    destruct r as [|c t]; [reflexivity|]. cbn in Hd. rewrite Hd.
    apply dropWhile_stops, Hr.
  - cbn [app]. rewrite Ascii.eqb_refl, dropWhile_all by exact Hfp.
    apply dropWhile_stops, Hr.
Qed.

Lemma ends_number_stops tok r :
  ends_number tok r -> stops isDigit r.
Proof. destruct r; cbn; tauto. Qed.

Lemma scanNumber_complete tok r :
  numeric_token tok -> ends_number tok r -> scanNumber (tok ++ r) = Some r.
Proof.
  intros (sign & ip & fr & -> & Hs & Hne & Hip & Hfr) Hend.
  destruct ip as [|c ip]; [congruence|].
  apply all_cons in Hip as [Hc Hip].
  assert (Hu : scanUnsigned (((c :: ip) ++ fr) ++ r) = Some r).
  { cbn [app scanUnsigned]. rewrite Hc. f_equal.
    rewrite <- app_assoc, dropWhile_all by exact Hip.
    assert (Hst : stops isDigit (fr ++ r)).
    { destruct Hfr as [->|(fp & -> & _)]; [|reflexivity].
      apply (ends_number_stops _ _ Hend). }
    rewrite dropWhile_stops by exact Hst.
    apply scanFrac_complete;
      [exact Hfr|apply (ends_number_stops _ _ Hend)|].
    intros ->. destruct r as [|c' t]; [exact I|]. cbn.
    destruct Hend as [_ [Hd|Hd]].
    - exfalso. rewrite app_nil_r, has_dot_app in Hd.
      assert (Hd' : has_dot (c :: ip) = false)
        by (apply digits_no_dot, all_cons; split; assumption).
      rewrite Hd', orb_false_r in Hd.
      destruct Hs as [->| ->]; discriminate.
    - destruct (Ascii.eqb_spec c' "."); [contradiction|reflexivity]. }
  destruct Hs as [->| ->].
  - cbn [app] in *. cbn [scanNumber].
    rewrite (digit_not_minus _ Hc). exact Hu.
  - cbn [app] in *. cbn [scanNumber]. rewrite Ascii.eqb_refl. exact Hu.
Qed.

Lemma scanUnsigned_sound s r :
  scanUnsigned s = Some r ->
  exists ip fr,
    s = ip ++ fr ++ r /\ ip <> [] /\ all isDigit ip /\
    (fr = [] \/ exists fp, fr = "."%char :: fp /\ all isDigit fp) /\
    stops isDigit r /\ (fr = [] -> stops (fun c => Ascii.eqb c ".") r).
Proof.
  destruct s as [|c t]; [discriminate|]. cbn [scanUnsigned].
  destruct (isDigit c) eqn:Hc; [|discriminate]. intros [= <-].
  pose proof (take_drop isDigit t) as Ht.
  pose proof (takeWhile_all isDigit t) as Hip.
  pose proof (dropWhile_is_stop isDigit t) as Hu.
  set (u := dropWhile isDigit t) in *.
  exists (c :: takeWhile isDigit t).
  assert (Hall : all isDigit (c :: takeWhile isDigit t))
    by (apply all_cons; split; assumption).
  unfold scanFrac. destruct u as [|c' v] eqn:Eu.
  - exists []. cbn [dropWhile app]. rewrite app_nil_r in *.
    repeat split; try assumption; try discriminate; try (left; reflexivity).
    rewrite Ht. reflexivity.
  - destruct (Ascii.eqb_spec c' ".") as [->|Hnd].
    + exists ("."%char :: takeWhile isDigit v).
      repeat split; try assumption; try discriminate.
      * cbn [app]. rewrite take_drop. cbn [app] in Ht. rewrite Ht. reflexivity.
      * right. exists (takeWhile isDigit v). split; [reflexivity|].
        apply takeWhile_all.
      * apply dropWhile_is_stop.
    + exists []. rewrite (dropWhile_stops _ _ Hu). cbn [app].
      repeat split; try assumption; try discriminate; try (left; reflexivity).
      * cbn [app] in Ht. rewrite Ht. reflexivity.
      * intros _. cbn.
        destruct (Ascii.eqb_spec c' "."); [contradiction|reflexivity].
Qed.

Lemma scanNumber_sound s r :
  scanNumber s = Some r ->
  exists tok, s = tok ++ r /\ numeric_token tok /\ ends_number tok r.
Proof.
  intro H.
  assert (Hgen : forall sign u, (sign = [] \/ sign = ["-"%char]) ->
            scanUnsigned u = Some r ->
            exists tok, sign ++ u = tok ++ r /\ numeric_token tok /\
                        ends_number tok r).
  { intros sign u Hs Hu.
    apply scanUnsigned_sound in Hu
      as (ip & fr & -> & Hne & Hip & Hfr & Hst & Hdot).
    exists (sign ++ ip ++ fr). split; [rewrite <- !app_assoc; reflexivity|].
    split; [exists sign, ip, fr; repeat split; assumption|].
    destruct r as [|c t]; [exact I|]. cbn in Hst |- *. split; [exact Hst|].
    destruct Hfr as [->|(fp & -> & _)].
    - right. specialize (Hdot eq_refl). cbn in Hdot.
      intros ->. discriminate.
    - left. rewrite !has_dot_app. cbn. rewrite !orb_true_r. reflexivity. }
  destruct s as [|c t]; [discriminate|]. cbn [scanNumber] in H.
  destruct (Ascii.eqb_spec c "-") as [->|Hc].
  - apply (Hgen ["-"%char] t); [right; reflexivity|exact H].
  - apply (Hgen [] (c :: t)); [left; reflexivity|exact H].
Qed.

Lemma numeric_token_head tok :
  numeric_token tok ->
  exists c t, tok = c :: t /\ isSpace c = false.
Proof.
  intros (sign & ip & fr & -> & Hs & Hne & Hip & _).
  destruct ip as [|c ip]; [congruence|].
  apply all_cons in Hip as [Hc _].
  destruct Hs as [->| ->]; cbn [app]; eauto using digit_not_space.
Qed.

Lemma scanItem_complete ws tok sep r :
  all isSpace ws -> numeric_token tok -> separator_opt sep ->
  ends_item tok sep r ->
  scanItem (ws ++ tok ++ sep ++ r) = Some (tok ++ sep ++ r, sep ++ r, r).
Proof.
  intros Hws Htok Hsep Hend. unfold scanItem.
  rewrite dropWhile_all by exact Hws.
  rewrite dropWhile_stops.
  2:{ destruct (numeric_token_head _ Htok) as (c & t & -> & Hc). exact Hc. }
  rewrite scanNumber_complete; [|exact Htok|].
  - f_equal. f_equal. unfold dropSep.
    destruct Hsep as [->|(c & -> & Hc)].
    + cbn [app]. destruct Hend as [_ Hr].
      destruct r as [|c t]; [reflexivity|]. rewrite Hr. reflexivity.
    + cbn [app]. rewrite Hc. reflexivity.
  - destruct Hsep as [->|(c & -> & Hc)].
    + exact (proj1 Hend).
    + cbn [app ends_number]. destruct (sep_not_number _ Hc) as [Hd Hp].
      split; [exact Hd|right; exact Hp].
Qed.

Lemma scanItem_sound s s1 s2 s3 :
  scanItem s = Some (s1, s2, s3) ->
  exists ws tok sep,
    s = ws ++ s1 /\ s1 = tok ++ s2 /\ s2 = sep ++ s3 /\
    all isSpace ws /\ numeric_token tok /\ separator_opt sep /\
    ends_item tok sep s3.
Proof.
  unfold scanItem. destruct (scanNumber _) as [r|] eqn:E; [|discriminate].
  intros [= <- <- <-].
  apply scanNumber_sound in E as (tok & E & Htok & Hend).
  exists (takeWhile isSpace s), tok.
  unfold dropSep. destruct r as [|c t].
  - exists []. repeat split; try assumption; try exact I.
    + symmetry. apply take_drop.
    + apply takeWhile_all.
    + left. reflexivity.
  - destruct (isSep c) eqn:Hc.
    + exists [c]. repeat split; try assumption; try exact I.
      * symmetry. apply take_drop.
      * apply takeWhile_all.
      * right. exists c. split; [reflexivity|exact Hc].
    + exists []. repeat split; try assumption; try exact I; try apply Hend.
      * symmetry. apply take_drop.
      * apply takeWhile_all.
      * left. reflexivity.
Qed.

Lemma token_at_app tok s2 : token_at (tok ++ s2) s2 = tok.
Proof. apply firstn_suffix. Qed.

Lemma scanItem_split s s1 s2 s3 :
  scanItem s = Some (s1, s2, s3) ->
  exists a, s = a ++ s3 /\ a <> [] /\
            firstn (length s - length s3) s = a /\
            skipn (length a) s = s3.
Proof.
  intro H. pose proof (scanItem_shorter _ _ _ _ H) as Hl.
  apply scanItem_sound in H
    as (ws & tok & sep & -> & -> & -> & _).
  exists (ws ++ tok ++ sep).
  assert (E : ws ++ tok ++ sep ++ s3 = (ws ++ tok ++ sep) ++ s3)
    by (rewrite <- !app_assoc; reflexivity).
  rewrite E. repeat split.
  - intro Hnil. rewrite E, Hnil in Hl. cbn [app] in Hl. lia.
  - apply firstn_suffix.
  - rewrite skipn_app, Nat.sub_diag, skipn_all. reflexivity.
Qed.

Lemma run_text_cons it rest r :
  run_text (it :: rest) ++ r =
  lead it ++ token it ++ trail it ++ (run_text rest ++ r).
Proof.
  unfold run_text, item_text. cbn [map concat].
  rewrite <- !app_assoc. reflexivity.
Qed.

Lemma scanItem_items it rest r :
  separated (it :: rest) r ->
  scanItem (run_text (it :: rest) ++ r) =
  Some (token it ++ trail it ++ (run_text rest ++ r),
        trail it ++ (run_text rest ++ r),
        run_text rest ++ r).
Proof.
  intros ((Hws & Htok & Hsep) & Hend & _).
  rewrite run_text_cons. apply scanItem_complete; assumption.
Qed.

Lemma ends_item_head tok sep c a b :
  ends_item tok sep (c :: a) -> ends_item tok sep (c :: b).
Proof. unfold ends_item, ends_number. destruct sep; tauto. Qed.

Lemma ends_item_nil tok sep : ends_item tok sep [].
Proof. unfold ends_item, ends_number. destruct sep; tauto. Qed.

Lemma separated_nil_tail items r : separated items r -> separated items [].
Proof.
  induction items as [|it rest IH]; [trivial|].
  intros (Hv & He & Hs). cbn [separated]. repeat split; try apply Hv.
  - rewrite app_nil_r. destruct (run_text rest) as [|c a].
    + apply ends_item_nil.
    + cbn [app] in He. eapply ends_item_head. exact He.
  - apply IH, Hs.
Qed.

Lemma last_token_cons it items tok0 :
  last_token (it :: items) tok0 = last_token items (token it).
Proof.
  unfold last_token. cbn [map].
  destruct (map token items) as [|g l]; [reflexivity|].
  change (last (g :: l) tok0 = last (g :: l) (token it)). apply last_default.
Qed.

Lemma scanRun_items items r n tok0 :
  separated items r -> scanItem r = None ->
  length (run_text items ++ r) <= n ->
  scanRun n (run_text items ++ r) tok0 = (r, last_token items tok0).
Proof.
  revert n tok0. induction items as [|it rest IH]; intros n tok0 Hsep Hr Hn.
  - cbn [run_text map concat app]. destruct n; cbn [scanRun]; [reflexivity|].
    rewrite Hr. reflexivity.
  - pose proof (scanItem_items it rest r Hsep) as Hscan.
    pose proof (scanItem_shorter _ _ _ _ Hscan) as Hl.
    destruct n as [|n]; [lia|].
    cbn [scanRun]. rewrite Hscan, token_at_app.
    rewrite IH; [|apply Hsep|exact Hr|lia].
    rewrite last_token_cons. reflexivity.
Qed.

Lemma scanRun_sound n s tok0 :
  length s <= n ->
  exists items,
    s = run_text items ++ fst (scanRun n s tok0) /\
    separated items (fst (scanRun n s tok0)) /\
    snd (scanRun n s tok0) = last_token items tok0.
Proof.
  revert s tok0. induction n as [|n IH]; intros s tok0 Hn.
  - exists []. cbn. auto.
  - cbn [scanRun]. destruct (scanItem s) as [[[s1 s2] s3]|] eqn:E.
    + pose proof (scanItem_shorter _ _ _ _ E) as Hl.
      apply scanItem_sound in E
        as (ws & tok & sep & -> & -> & -> & Hws & Htok & Hsp & Hend).
      rewrite token_at_app.
      destruct (IH s3 tok ltac:(lia)) as (items & E3 & Hsep & Hlast).
      exists ({| lead := ws; token := tok; trail := sep |} :: items).
      rewrite run_text_cons. cbn [lead token trail separated].
      rewrite <- E3. repeat split; try assumption.
      rewrite Hlast, last_token_cons. reflexivity.
    + exists []. cbn. auto.
Qed.

Lemma separated_tokens items r :
  separated items r -> Forall numeric_token (map token items).
Proof.
  induction items as [|it rest IH]; intro H; [constructor|].
  destruct H as ((_ & Ht & _) & _ & Hs). constructor; [exact Ht|apply IH, Hs].
Qed.

Lemma numeric_token_bytes tok :
  numeric_token tok -> all token_byte tok.
Proof.
  intros (sign & ip & fr & -> & Hs & _ & Hip & Hfr).
  assert (Hd : forall s, all isDigit s -> all token_byte s).
  { intros s. unfold all. rewrite !forallb_forall. intros H c Hc.
    unfold token_byte. rewrite (H c Hc). reflexivity. }
  apply all_app. split; [destruct Hs as [->| ->]; reflexivity|].
  apply all_app. split; [apply Hd, Hip|].
  destruct Hfr as [->|(fp & -> & Hfp)]; [reflexivity|].
  apply all_cons. split; [reflexivity|apply Hd, Hfp].
Qed.

(** ** The backtracking search on the patterns *)

Section Engine.

Variable f : bool.
Variable d : gostring.

Lemma run_Lit_nil cls caps k : run f d (Lit cls) [] caps k = None.
Proof. reflexivity. Qed.

Lemma run_Lit_step cls s caps k :
  run f d (Lit cls) s caps k =
  match step s with
  | Some (x, s') => if cmatch f cls x then k s' caps else None
  | None => None
  end.
Proof. reflexivity. Qed.

Lemma run_Lit_cons cls c t caps k :
  ascii_only f cls ->
  run f d (Lit cls) (c :: t) caps k =
  if inclass f cls c then k t caps else None.
Proof.
  intro Ha. cbn [run]. unfold inclass.
  destruct (N.lt_ge_cases (byteval c) 128) as [H|H].
  - rewrite (step_ascii _ _ H). reflexivity.
  - destruct (step_nonascii c t H) as (r & s' & -> & Hr & _).
    destruct (cmatch f cls r) eqn:E1; [apply Ha in E1; lia|].
    destruct (cmatch f cls (byteval c)) eqn:E2; [apply Ha in E2; lia|].
    reflexivity.
Qed.

(** The equations of [run], one per constructor. *)
Lemma run_Cat r1 r2 s caps k :
  run f d (Cat r1 r2) s caps k =
  run f d r1 s caps (fun s' caps' => run f d r2 s' caps' k).
Proof. reflexivity. Qed.

Lemma run_Group i r s caps k :
  run f d (Group i r) s caps k =
  run f d r s caps (fun s' caps' =>
    k s' (setcap i (firstn (length s - length s') s) caps')).
Proof. reflexivity. Qed.

Lemma run_Plus r s caps k :
  run f d (Plus r) s caps k =
  run f d r s caps (fun s' caps' => star (run f d r) (length s') s' caps' k).
Proof. reflexivity. Qed.

Lemma run_BeginText r s caps k :
  run f d (BeginText @@ r) s caps k =
  if length s =? length d then run f d r s caps k else None.
Proof. reflexivity. Qed.

Lemma star_total body n s caps K :
  K s caps <> None -> star body n s caps K <> None.
Proof.
  intro H. destruct n; cbn [star]; [exact H|].
  destruct (body s caps _); [discriminate|exact H].
Qed.

(** A greedy run over a class, followed by [K]: when [K] accepts where
    the run ends, or rejects every text that starts inside the class,
    the loop hands [K] the text after the longest run. *)
Lemma star_Lit cls n s caps K :
  ascii_only f cls ->
  length s <= n ->
  (K (dropWhile (inclass f cls) s) caps <> None \/
   (forall c t, inclass f cls c = true -> K (c :: t) caps = None)) ->
  star (run f d (Lit cls)) n s caps K = K (dropWhile (inclass f cls) s) caps.
Proof.
  intros Ha. revert n. induction s as [|c t IH]; intros n Hn HK.
  - destruct n; cbn [star dropWhile]; [reflexivity|].
    rewrite run_Lit_nil. reflexivity.
  - destruct n as [|n]; [cbn in Hn; lia|].
    cbn [star dropWhile]. rewrite run_Lit_cons by exact Ha.
    destruct (inclass f cls c) eqn:Ec; [|reflexivity].
    assert (Hlt : (length t <? length (c :: t)) = true)
      by (apply Nat.ltb_lt; cbn; lia).
    rewrite Hlt.
    cbn [dropWhile] in HK. rewrite Ec in HK.
    rewrite IH by (cbn in Hn; try lia; exact HK).
    destruct (K (dropWhile (inclass f cls) t) caps) eqn:Ek; [reflexivity|].
    destruct HK as [HK|HK]; [congruence|].
    apply HK. exact Ec.
Qed.

Lemma run_Quest_Lit cls s caps k :
  ascii_only f cls ->
  run f d (Quest (Lit cls)) s caps k =
  match s with
  | c :: t =>
    if inclass f cls c then
      match k t caps with Some x => Some x | None => k s caps end
    else k s caps
  | [] => k [] caps
  end.
Proof.
  intro Ha. change (run f d (Quest (Lit cls)) s caps k)
    with (match run f d (Lit cls) s caps k with
          | Some x => Some x | None => k s caps end).
  destruct s as [|c t]; [reflexivity|].
  rewrite run_Lit_cons by exact Ha.
  destruct (inclass f cls c); reflexivity.
Qed.

Lemma run_Star_Lit cls s caps k :
  ascii_only f cls ->
  (k (dropWhile (inclass f cls) s) caps <> None \/
   (forall c t, inclass f cls c = true -> k (c :: t) caps = None)) ->
  run f d (Star (Lit cls)) s caps k = k (dropWhile (inclass f cls) s) caps.
Proof.
  intros Ha Hk.
  change (run f d (Star (Lit cls)) s caps k)
    with (star (run f d (Lit cls)) (length s) s caps k).
  apply star_Lit; [exact Ha|apply le_n|exact Hk].
Qed.

Lemma run_Plus_Lit cls s caps k :
  ascii_only f cls ->
  (forall c t, s = c :: t -> inclass f cls c = true ->
     k (dropWhile (inclass f cls) t) caps <> None) ->
  run f d (Plus (Lit cls)) s caps k =
  match s with
  | c :: t =>
    if inclass f cls c then k (dropWhile (inclass f cls) t) caps else None
  | [] => None
  end.
Proof.
  intros Ha Hk.
  change (run f d (Plus (Lit cls)) s caps k)
    with (run f d (Lit cls) s caps (fun s' caps' =>
            star (run f d (Lit cls)) (length s') s' caps' k)).
  destruct s as [|c t]; [reflexivity|].
  rewrite run_Lit_cons by exact Ha.
  destruct (inclass f cls c) eqn:Ec; [|reflexivity].
  apply star_Lit; [exact Ha|apply le_n|left; apply (Hk c t eq_refl Ec)].
Qed.

Lemma run_fraction s caps k :
  k (scanFrac s) caps <> None ->
  run f d fraction s caps k = k (scanFrac s) caps.
Proof.
  intro Hk. unfold fraction. rewrite run_Cat.
  rewrite run_Quest_Lit by apply ascii_only_dot.
  unfold scanFrac in *.
  destruct s as [|c t].
  - rewrite run_Star_Lit by
      (apply ascii_only_digit || (left; rewrite dropWhile_digit; exact Hk)).
    rewrite dropWhile_digit. reflexivity.
  - rewrite inclass_dot. destruct (Ascii.eqb c ".").
    + rewrite run_Star_Lit by
        (apply ascii_only_digit || (left; rewrite dropWhile_digit; exact Hk)).
      rewrite dropWhile_digit.
      destruct (k (dropWhile isDigit t) caps); [reflexivity|congruence].
    + rewrite run_Star_Lit by
        (apply ascii_only_digit || (left; rewrite dropWhile_digit; exact Hk)).
      rewrite dropWhile_digit. reflexivity.
Qed.

Lemma run_unsigned s caps k :
  (forall r, scanUnsigned s = Some r -> k r caps <> None) ->
  run f d unsigned s caps k =
  match scanUnsigned s with Some r => k r caps | None => None end.
Proof.
  intro Hk. unfold unsigned. rewrite run_Cat.
  assert (Hend : forall c t, s = c :: t -> isDigit c = true ->
            k (scanFrac (dropWhile isDigit t)) caps <> None).
  { intros c t -> Hc. apply Hk. cbn. rewrite Hc. reflexivity. }
  rewrite run_Plus_Lit.
  - destruct s as [|c t]; [reflexivity|]. cbn [scanUnsigned].
    rewrite inclass_digit. destruct (isDigit c) eqn:Ec; [|reflexivity].
    rewrite dropWhile_digit. apply run_fraction. eapply Hend; eauto.
  - apply ascii_only_digit.
  - intros c t Hs Hc. rewrite inclass_digit in Hc. rewrite dropWhile_digit.
    rewrite run_fraction by (eapply Hend; eauto). eapply Hend; eauto.
Qed.

Lemma number_eq : number = (Quest (Lit (Chr "-")) @@ unsigned)%re.
Proof. reflexivity. Qed.

Lemma run_number s caps k :
  (forall r, scanNumber s = Some r -> k r caps <> None) ->
  run f d number s caps k =
  match scanNumber s with Some r => k r caps | None => None end.
Proof.
  intro Hk. rewrite number_eq, run_Cat.
  rewrite run_Quest_Lit by apply ascii_only_minus.
  destruct s as [|c t].
  - rewrite run_unsigned by (intros r [=]). reflexivity.
  - rewrite inclass_minus. cbn [scanNumber] in *.
    destruct (Ascii.eqb c "-") eqn:Ec.
    + rewrite run_unsigned by exact Hk.
      destruct (scanUnsigned t) as [r|].
      * destruct (k r caps) eqn:Ek; [reflexivity|].
        exfalso. exact (Hk r eq_refl Ek).
      * rewrite run_unsigned; cbn [scanUnsigned];
          rewrite (minus_not_digit c Ec); [reflexivity|intros r [=]].
    + apply run_unsigned. exact Hk.
Qed.

Lemma run_item i s caps k :
  (forall s1 s2 s3, scanItem s = Some (s1, s2, s3) ->
     k s3 (setcap i (token_at s1 s2) caps) <> None) ->
  run f d (item i) s caps k =
  match scanItem s with
  | Some (s1, s2, s3) => k s3 (setcap i (token_at s1 s2) caps)
  | None => None
  end.
Proof.
  intro Hk. unfold item. rewrite run_Cat.
  rewrite run_Star_Lit; [|apply ascii_only_space|].
  2:{ right. intros c t Hc. rewrite inclass_space in Hc.
      rewrite run_Cat, run_Group.
      rewrite run_number; rewrite (space_not_number c t Hc);
        [reflexivity|intros r [=]]. }
  rewrite dropWhile_space. unfold scanItem in *.
  set (s1 := dropWhile isSpace s) in *.
  rewrite run_Cat, run_Group.
  assert (Hq : forall s2 caps', 
            k (dropSep s2) caps' <> None ->
            run f d (Quest (Lit separator)) s2 caps' k = k (dropSep s2) caps').
  { intros s2 caps' H2. rewrite run_Quest_Lit by apply ascii_only_sep.
    unfold dropSep in *. destruct s2 as [|c t]; [reflexivity|].
    rewrite inclass_sep. destruct (isSep c); [|reflexivity].
    destruct (k t caps'); [reflexivity|congruence]. }
  rewrite run_number.
  - destruct (scanNumber s1) as [s2|]; [|reflexivity].
    apply Hq. apply (Hk s1 s2 (dropSep s2) eq_refl).
  - intros s2 Hs2. rewrite Hs2 in Hk.
    rewrite Hq; apply (Hk s1 s2 (dropSep s2) eq_refl).
Qed.

Lemma star_items n s c0 c1 c2 K :
  length s <= n ->
  (forall s' caps', K s' caps' <> None) ->
  star (run f d (item 2)) n s [c0; c1; c2] K =
  let (sF, tok) := scanRun n s c2 in K sF [c0; c1; tok].
Proof.
  intros Hn HK. revert s c2 Hn.
  induction n as [|n IH]; intros s c2 Hn; [reflexivity|].
  cbn [star scanRun].
  rewrite run_item.
  - destruct (scanItem s) as [[[s1 s2] s3]|] eqn:Es; [|reflexivity].
    apply scanItem_shorter in Es.
    destruct (Nat.ltb_spec (length s3) (length s)); [|lia].
    cbn [setcap]. rewrite IH by lia.
    destruct (scanRun n s3 (token_at s1 s2)) as [sF tok].
    destruct (K sF [c0; c1; tok]) eqn:Ek; [reflexivity|].
    exfalso. exact (HK _ _ Ek).
  - intros s1 s2 s3 Es. apply scanItem_shorter in Es.
    destruct (Nat.ltb_spec (length s3) (length s)); [|lia].
    apply star_total. apply HK.
Qed.

End Engine.

(** ** [FindStringSubmatch] on the three patterns *)

Lemma search_off re d r n s :
  expr re = (BeginText @@ r)%re ->
  length s < length d ->
  search re d n s = [].
Proof.
  intros He. revert s. induction n as [|n IH]; intros s Hs.
  - cbn [search]. rewrite He, run_BeginText.
    destruct (Nat.eqb_spec (length s) (length d)); [lia|reflexivity].
  - cbn [search]. rewrite He, run_BeginText.
    destruct (Nat.eqb_spec (length s) (length d)); [lia|].
    destruct (step s) as [[x s']|] eqn:Es; [|reflexivity].
    apply IH. apply step_shorter in Es. lia.
Qed.

Lemma search_anchored re d r :
  expr re = (BeginText @@ r)%re ->
  FindStringSubmatch re d =
  match run (foldCase re) d r d
            (repeat [] (S (numSubexp (expr re)))) accept with
  | Some (s', caps) => setcap 0 (firstn (length d - length s') d) caps
  | None => []
  end.
Proof.
  intro He. unfold FindStringSubmatch.
  destruct (length d) as [|n] eqn:El.
  - cbn [search]. rewrite He at 1. rewrite run_BeginText, El, Nat.eqb_refl.
    destruct d; [|discriminate]. 
    destruct (run _ _ _ _ _ _) as [[s' caps]|]; reflexivity.
  - cbn [search]. rewrite He at 1. rewrite run_BeginText, El, Nat.eqb_refl.
    destruct (run _ _ _ _ _ _) as [[s' caps]|]; [reflexivity|].
    destruct (step d) as [[x s']|] eqn:Es; [|reflexivity].
    apply (search_off re d r n s' He). apply step_shorter in Es. lia.
Qed.

(** closeRE matches a text that starts with z or Z, up to the end of the
    white space after it. *)
Lemma closeRE_match (d : gostring) :
  FindStringSubmatch closeRE d =
  match d with
  | c :: t => if isCloseLetter c then [c :: takeWhile isSpace t; [c]] else []
  | [] => []
  end.
Proof.
  rewrite (search_anchored closeRE d _ eq_refl).
  cbn [foldCase closeRE expr numSubexp Nat.max repeat].
  rewrite run_Cat, run_Group.
  destruct d as [|c t]; [reflexivity|].
  rewrite run_Lit_cons by apply ascii_only_z.
  rewrite inclass_z. destruct (isCloseLetter c); [|reflexivity].
  rewrite run_Star_Lit by (apply ascii_only_space || (left; discriminate)).
  unfold accept. rewrite dropWhile_space.
  replace (length (c :: t) - length t) with 1 by (cbn [length]; lia).
  cbn [firstn setcap]. f_equal.
  change (c :: t) with ([c] ++ t).
  rewrite <- (take_drop isSpace t) at 1 3.
  rewrite app_assoc. rewrite firstn_suffix. reflexivity.
Qed.

(** numRE matches where [scanItem] finds an item. *)
Lemma numRE_match (d : gostring) :
  FindStringSubmatch numRE d =
  match scanItem d with
  | Some (s1, s2, s3) => [firstn (length d - length s3) d; token_at s1 s2]
  | None => []
  end.
Proof.
  rewrite (search_anchored numRE d _ eq_refl).
  cbn [foldCase numRE expr numSubexp Nat.max repeat].
  change (Star (Lit Perl_s) @@ Group 1 number @@ Quest (Lit separator))%re
    with (item 1).
  rewrite run_item by (intros; discriminate).
  destruct (scanItem d) as [[[s1 s2] s3]|]; reflexivity.
Qed.

(** cmdRE matches a command letter followed by at least one item, up to
    the end of the last item that follows. *)
Lemma cmdRE_match (d : gostring) :
  FindStringSubmatch cmdRE d =
  match step d with
  | Some (x, d1) =>
    if cmatch true (OneOf "mlhvcsqta") x then
      match scanItem d1 with
      | Some (s1, s2, s3) =>
        let (sF, tok) := scanRun (length s3) s3 (token_at s1 s2) in
        [firstn (length d - length sF) d; firstn (length d - length d1) d; tok]
      | None => []
      end
    else []
  | None => []
  end.
Proof.
  rewrite (search_anchored cmdRE d _ eq_refl).
  change (repeat [] (S (numSubexp (expr cmdRE))))
    with ([[]; []; []] : captures).
  cbn [foldCase cmdRE].
  change (Star (Lit Perl_s) @@ Group 2 number @@ Quest (Lit separator))
    with (item 2).
  rewrite run_Cat, run_Group, run_Lit_step.
  destruct (step d) as [[x d1]|]; [|reflexivity].
  destruct (cmatch true (OneOf "mlhvcsqta") x); [|reflexivity].
  rewrite run_Plus. cbn [setcap].
  rewrite run_item.
  - destruct (scanItem d1) as [[[s1 s2] s3]|]; [|reflexivity].
    cbn [setcap]. rewrite star_items by (lia || discriminate).
    destruct (scanRun _ _ _) as [sF tok]. reflexivity.
  - intros s1 s2 s3 _. apply star_total. discriminate.
Qed.

(** cmdRE on a text whose first byte is ASCII. *)
Lemma cmdRE_ascii c d1 :
  (byteval c < 128)%N ->
  FindStringSubmatch cmdRE (c :: d1) =
  if isCmdLetter c then
    match scanItem d1 with
    | Some (s1, s2, s3) =>
      let (sF, tok) := scanRun (length s3) s3 (token_at s1 s2) in
      [c :: firstn (length d1 - length sF) d1; [c]; tok]
    | None => []
    end
  else [].
Proof.
  intro Hc. rewrite cmdRE_match, (step_ascii _ _ Hc).
  change (cmatch true (OneOf "mlhvcsqta") (byteval c))
    with (inclass true (OneOf "mlhvcsqta") c).
  rewrite inclass_cmd. destruct (isCmdLetter c); [|reflexivity].
  destruct (scanItem d1) as [[[s1 s2] s3]|] eqn:E; [|reflexivity].
  pose proof (scanRun_length (length s3) s3 (token_at s1 s2)) as Hr.
  destruct (scanRun _ _ _) as [sF tok]. cbn [fst] in Hr.
  apply scanItem_shorter in E.
  replace (length (c :: d1) - length d1) with 1 by (cbn [length]; lia).
  replace (length (c :: d1) - length sF) with (S (length d1 - length sF))
    by (cbn [length]; lia).
  reflexivity.
Qed.

(** A successful match of cmdRE after a command letter: what follows
    the letter is a well-separated run. *)
Lemma cmdRE_run c d1 m :
  isCmdLetter c = true ->
  FindStringSubmatch cmdRE (c :: d1) = m -> 3 <= length m ->
  exists items r,
    items <> [] /\ d1 = run_text items ++ r /\ separated items r /\
    m = [c :: run_text items; [c]; last_token items []].
Proof.
  intros Hc <- Hm.
  destruct (cmd_letter_ascii _ Hc) as [Ha _]. apply N.ltb_lt in Ha.
  rewrite (cmdRE_ascii _ _ Ha), Hc in *.
  destruct (scanItem d1) as [[[s1 s2] s3]|] eqn:E; [|cbn in Hm; lia].
  apply scanItem_sound in E
    as (ws & tok & sep & -> & -> & -> & Hws & Htok & Hsp & Hend).
  rewrite token_at_app.
  destruct (scanRun_sound (length s3) s3 tok (le_n _))
    as (items & E3 & Hsep & Hlast).
  destruct (scanRun (length s3) s3 tok) as [sF tokF]. cbn [fst snd] in *.
  exists ({| lead := ws; token := tok; trail := sep |} :: items), sF.
  split; [discriminate|].
  assert (Ed : ws ++ tok ++ sep ++ s3 =
               run_text ({| lead := ws; token := tok; trail := sep |}
                         :: items) ++ sF).
  { rewrite run_text_cons. cbn [lead token trail]. rewrite <- E3. reflexivity. }
  split; [exact Ed|]. split.
  - cbn [separated lead token trail]. rewrite <- E3. repeat split; assumption.
  - rewrite Ed, firstn_suffix, Hlast, last_token_cons. reflexivity.
Qed.

Lemma cmdRE_items c items r :
  isCmdLetter c = true -> items <> [] -> separated items r ->
  scanItem r = None ->
  FindStringSubmatch cmdRE (c :: run_text items ++ r) =
  [c :: run_text items; [c]; last_token items []].
Proof.
  intros Hc Hne Hsep Hr.
  destruct (cmd_letter_ascii _ Hc) as [Ha _]. apply N.ltb_lt in Ha.
  rewrite (cmdRE_ascii _ _ Ha), Hc.
  destruct items as [|it rest]; [congruence|].
  rewrite (scanItem_items it rest r Hsep), token_at_app.
  rewrite scanRun_items; [|apply Hsep|exact Hr|apply le_n].
  rewrite firstn_suffix, last_token_cons. reflexivity.
Qed.

(** The text matched by a pattern is never empty, so an iteration that
    goes on leaves a shorter text. *)
Lemma closeRE_consumes d m :
  FindStringSubmatch closeRE d = m -> length m = 2 ->
  idx m 0 <> [] /\ length (skipn (length (idx m 0)) d) < length d.
Proof.
  rewrite closeRE_match. intros <- Hm.
  destruct d as [|c t]; [discriminate|].
  destruct (isCloseLetter c); [|discriminate].
  cbn [idx nth]. split; [discriminate|].
  rewrite length_skipn. cbn [length]. lia.
Qed.

Lemma numRE_consumes d m :
  FindStringSubmatch numRE d = m -> length m = 2 ->
  idx m 0 <> [] /\ length (skipn (length (idx m 0)) d) < length d.
Proof.
  rewrite numRE_match. intros <- Hm.
  destruct (scanItem d) as [[[s1 s2] s3]|] eqn:E; [|discriminate].
  destruct (scanItem_split _ _ _ _ E) as (a & Hd & Hne & Hf & Hs).
  cbn [idx nth]. rewrite Hf. split; [exact Hne|].
  rewrite length_skipn. destruct a; [congruence|].
  rewrite Hd. cbn [length app]. lia.
Qed.

Lemma cmdRE_consumes d m :
  FindStringSubmatch cmdRE d = m -> 3 <= length m ->
  idx m 0 <> [] /\ length (skipn (length (idx m 0)) d) < length d.
Proof.
  rewrite cmdRE_match. intros <- Hm.
  destruct (step d) as [[x d1]|] eqn:Es; [|cbn in Hm; lia].
  destruct (cmatch _ _ x); [|cbn in Hm; lia].
  destruct (scanItem d1) as [[[s1 s2] s3]|] eqn:E; [|cbn in Hm; lia].
  pose proof (scanRun_length (length s3) s3 (token_at s1 s2)) as Hr.
  destruct (scanRun _ _ _) as [sF tok]. cbn [fst] in Hr.
  apply step_shorter in Es. apply scanItem_shorter in E.
  cbn [idx nth].
  assert (Hl : length (firstn (length d - length sF) d) = length d - length sF)
    by (rewrite length_firstn; lia).
  split.
  - intro H0. rewrite H0 in Hl. cbn [length] in Hl. lia.
  - rewrite length_skipn, Hl. lia.
Qed.

(** ** Conversion of the tokens *)

Lemma atof_cases s :
  (exists v, atof s = Returned v /\ ParseFloat s = (v, None)) \/
  (atof s = Fatalf (unable_to_parse_as_float64 s) /\
   exists v e, ParseFloat s = (v, Some e)).
Proof.
  unfold atof. destruct (ParseFloat s) as [v [e|]]; eauto.
Qed.

Lemma readDigits_digits ip s sawdot sd m dp :
  all isDigit ip ->
  exists m' dp',
    readDigits (ip ++ s) sawdot sd m dp =
    readDigits s sawdot (match ip with [] => sd | _ => true end) m' dp'.
Proof.
  revert sd m dp. induction ip as [|c ip IH]; intros sd m dp H.
  - eexists _, _. reflexivity.
  - apply all_cons in H as [Hc Hip]. cbn [app readDigits].
    rewrite (digit_not_dot _ Hc), Hc.
    destruct (IH true (10 * m + digitVal c)%Z (if sawdot then S dp else dp) Hip)
      as (m' & dp' & ->).
    exists m', dp'. destruct ip; reflexivity.
Qed.

(** Every token of the grammar is a decimal literal for [ParseFloat]. *)
Lemma captured_is_decimal tok :
  numeric_token tok -> readFloat tok <> None.
Proof.
  intros (sign & ip & fr & -> & Hs & Hne & Hip & Hfr).
  assert (Hbody : readDigits (ip ++ fr) false false 0 0 <> None).
  { destruct (readDigits_digits ip fr false false 0%Z 0 Hip) as (m & dp & ->).
    destruct ip as [|c ip]; [congruence|].
    destruct Hfr as [->|(fp & -> & Hfp)]; [discriminate|].
    cbn [readDigits]. rewrite Ascii.eqb_refl.
    destruct (readDigits_digits fp [] true true m dp Hfp) as (m' & dp' & E).
    rewrite app_nil_r in E. rewrite E.
    destruct fp; discriminate. }
  unfold readFloat.
  destruct Hs as [->| ->].
  - cbn [app]. destruct ip as [|c ip]; [congruence|].
    apply all_cons in Hip as [Hc _]. cbn [app] in *.
    assert (Hp : Ascii.eqb c "+" = false)
      by (revert Hc; clear; bytes c; vm_compute; intro;
          (discriminate || reflexivity)).
    rewrite Hp, (digit_not_minus _ Hc).
    destruct (readDigits _ _ _ _ _) as [[m dp]|]; [discriminate|congruence].
  - cbn [app]. change (Ascii.eqb "-" "+") with false.
    change (Ascii.eqb "-" "-") with true. cbv iota.
    destruct (readDigits _ _ _ _ _) as [[m dp]|]; [discriminate|congruence].
Qed.

(** On a token of the grammar [atof] returns its value or stops on a
    value out of range. *)
Lemma atof_token tok :
  numeric_token tok ->
  (converts tok /\ atof tok = Returned (value tok)) \/
  (snd (ParseFloat tok) = Some ErrRange /\
   atof tok = Fatalf (unable_to_parse_as_float64 tok)).
Proof.
  intro H. apply captured_is_decimal in H.
  unfold converts, value, atof, ParseFloat in *.
  destruct (readFloat tok) as [[[neg m] dp]|]; [|congruence].
  destruct (roundDecimal neg m dp); cbn; auto.
Qed.

Lemma atofs_converts toks acc :
  Forall converts toks ->
  atofs toks acc = Returned (acc ++ map value toks).
Proof.
  revert acc. induction toks as [|t ts IH]; intros acc H.
  - cbn. rewrite app_nil_r. reflexivity.
  - inversion H as [|? ? Ht Hts]; subst. cbn [atofs map].
    unfold converts, value in *. unfold atof.
    destruct (ParseFloat t) as [v e]. cbn [fst snd] in *. subst e.
    cbn [bind]. rewrite IH by exact Hts. rewrite <- app_assoc. reflexivity.
Qed.

Lemma atofs_tokens toks acc :
  Forall numeric_token toks ->
  (Forall converts toks /\ atofs toks acc = Returned (acc ++ map value toks)) \/
  (exists tok, In tok toks /\ snd (ParseFloat tok) = Some ErrRange /\
               atofs toks acc = Fatalf (unable_to_parse_as_float64 tok)).
Proof.
  revert acc. induction toks as [|t ts IH]; intros acc H.
  - left. split; [constructor|]. cbn. rewrite app_nil_r. reflexivity.
  - inversion H as [|? ? Ht Hts]; subst. cbn [atofs].
    destruct (atof_token _ Ht) as [[Hc ->]|[He ->]]; cbn [bind].
    + destruct (IH (acc ++ [value t]) Hts) as [[Hall ->]|(tok & Hin & He & ->)].
      * left. split; [constructor; assumption|].
        cbn [map]. rewrite <- app_assoc. reflexivity.
      * right. exists tok. repeat split; [right; exact Hin|exact He].
    + right. exists t. repeat split; [left; reflexivity|exact He].
Qed.

(** ** [parseParams] *)

(** One iteration of the loop of [parseParams], through the scanner. *)
Lemma parseParams_loop_S n c t acc :
  parseParams_loop (S n) (c :: t) acc =
  match scanItem (c :: t) with
  | Some (s1, s2, s3) =>
    v <- atof (token_at s1 s2) ;; parseParams_loop n s3 (acc ++ [v])
  | None => Fatalf (parseParams_unable_to_parse (c :: t))
  end.
Proof.
  cbn [parseParams_loop]. rewrite numRE_match.
  destruct (scanItem (c :: t)) as [[[s1 s2] s3]|] eqn:E; [|reflexivity].
  destruct (scanItem_split _ _ _ _ E) as (a & Hd & _ & Hf & Hs).
  rewrite Hf. cbn [length Nat.eqb idx nth]. rewrite Hs. reflexivity.
Qed.

Lemma parseParams_loop_nil n acc : parseParams_loop n [] acc = Returned acc.
Proof. destruct n; reflexivity. Qed.

(** The loop of [parseParams] never runs out of fuel, and fuel beyond
    the length of the text changes nothing. *)
Lemma parseParams_loop_fuel n m d acc :
  length d <= n -> length d <= m ->
  parseParams_loop n d acc <> OutOfFuel /\
  parseParams_loop n d acc = parseParams_loop m d acc.
Proof.
  revert m d acc. induction n as [|n IH]; intros m d acc Hn Hm.
  - destruct d; [|cbn in Hn; lia].
    rewrite !parseParams_loop_nil. split; [discriminate|reflexivity].
  - destruct d as [|c t];
      [rewrite !parseParams_loop_nil; split; [discriminate|reflexivity]|].
    destruct m as [|m]; [cbn in Hm; lia|].
    rewrite !parseParams_loop_S.
    destruct (scanItem (c :: t)) as [[[s1 s2] s3]|] eqn:E;
      [|split; [discriminate|reflexivity]].
    apply scanItem_shorter in E. cbn [length] in *.
    destruct (atof_cases (token_at s1 s2)) as [(v & -> & _)|[-> _]];
      [|split; [discriminate|reflexivity]].
    apply IH; lia.
Qed.

Lemma parseParams_no_OutOfFuel d : parseParams d <> OutOfFuel.
Proof. apply (parseParams_loop_fuel (length d) (length d)); lia. Qed.

(** On a well-separated run, [parseParams] converts the tokens in
    order. *)
Lemma parseParams_loop_items items n acc :
  separated items [] ->
  length (run_text items) <= n ->
  parseParams_loop n (run_text items) acc = atofs (map token items) acc.
Proof.
  revert n acc. induction items as [|it rest IH]; intros n acc Hsep Hn.
  - apply parseParams_loop_nil.
  - pose proof (scanItem_items it rest [] Hsep) as Hscan.
    rewrite !app_nil_r in Hscan.
    pose proof (scanItem_shorter _ _ _ _ Hscan) as Hl.
    destruct (run_text (it :: rest)) as [|c t] eqn:Et;
      [cbn [length] in Hl; lia|].
    destruct n as [|n]; [cbn in Hn; lia|].
    rewrite parseParams_loop_S, Hscan.
    rewrite token_at_app. cbn [map atofs].
    destruct (atof (token it)); try reflexivity.
    apply IH; [apply Hsep|cbn [length] in *; lia].
Qed.

Lemma parseParams_loop_cases n d acc :
  length d <= n ->
  (exists vs, parseParams_loop n d acc = Returned vs) \/
  (exists f, parseParams_loop n d acc = Fatalf f).
Proof.
  revert d acc. induction n as [|n IH]; intros d acc Hn.
  - destruct d; [|cbn in Hn; lia]. left. eexists. reflexivity.
  - destruct d as [|c t]; [left; eexists; reflexivity|].
    rewrite parseParams_loop_S.
    destruct (scanItem (c :: t)) as [[[s1 s2] s3]|] eqn:E;
      [|right; eexists; reflexivity].
    apply scanItem_shorter in E. cbn [length] in *.
    destruct (atof_cases (token_at s1 s2)) as [(v & -> & _)|[-> _]];
      [|right; eexists; reflexivity].
    apply IH. lia.
Qed.

Lemma parseParams_cases d :
  (exists vs, parseParams d = Returned vs) \/
  (exists f, parseParams d = Fatalf f).
Proof. apply parseParams_loop_cases, le_n. Qed.

(** What [parseParams] returns, it returns for a well-separated run
    whose tokens all convert. *)
Lemma parseParams_loop_returned n d acc vs :
  length d <= n ->
  parseParams_loop n d acc = Returned vs ->
  exists items,
    d = run_text items /\ separated items [] /\
    Forall converts (map token items) /\
    vs = acc ++ map value (map token items).
Proof.
  revert d acc. induction n as [|n IH]; intros d acc Hn H.
  - destruct d; [|cbn in Hn; lia]. injection H as <-.
    exists []. rewrite app_nil_r. repeat split; constructor.
  - destruct d as [|c t].
    + injection H as <-. exists []. rewrite app_nil_r.
      repeat split; constructor.
    + rewrite parseParams_loop_S in H.
      destruct (scanItem (c :: t)) as [[[s1 s2] s3]|] eqn:E; [|discriminate].
      pose proof (scanItem_shorter _ _ _ _ E) as Hl.
      apply scanItem_sound in E
        as (ws & tok & sep & Ed & -> & -> & Hws & Htok & Hsp & Hend).
      rewrite token_at_app in H.
      destruct (atof_cases tok) as [(v & Ha & Hp)|[Ha _]];
        rewrite Ha in H; [|discriminate].
      cbn [bind] in H.
      destruct (IH s3 (acc ++ [v])) as (items & -> & Hsep & Hconv & ->);
        [cbn [length] in *; lia|exact H|].
      exists ({| lead := ws; token := tok; trail := sep |} :: items).
      assert (Hv : value tok = v) by (unfold value; rewrite Hp; reflexivity).
      assert (Hc : converts tok) by (unfold converts; rewrite Hp; reflexivity).
      repeat split; try assumption.
      * rewrite Ed. unfold run_text, item_text.
        cbn [map concat lead token trail].
        rewrite <- !app_assoc. reflexivity.
      * cbn [token trail]. rewrite app_nil_r. exact Hend.
      * constructor; assumption.
      * cbn [map token]. rewrite Hv, <- app_assoc. reflexivity.
Qed.

Lemma parseParams_returned d vs :
  parseParams d = Returned vs <->
  exists items,
    d = run_text items /\ separated items [] /\
    Forall converts (map token items) /\
    vs = map value (map token items).
Proof.
  unfold parseParams. split.
  - intro H. apply (parseParams_loop_returned (length d) d [] vs (le_n _) H).
  - intros (items & -> & Hsep & Hconv & ->).
    rewrite (parseParams_loop_items items _ [] Hsep (le_n _)).
    apply (atofs_converts _ [] Hconv).
Qed.

(** ** The loop of [ParsePath] *)

(** An iteration either fails fatally or goes on with one more step and
    a shorter text. *)
Lemma iteration_cases st :
  (exists st' step,
     iteration st = Returned st' /\ steps st' = steps st ++ [step] /\
     length (rest st') < length (rest st)) \/
  (exists f, iteration st = Fatalf f).
Proof.
  unfold iteration.
  destruct (Nat.eqb_spec (length (FindStringSubmatch closeRE (rest st))) 2)
    as [H2|H2].
  - left. destruct (closeRE_consumes (rest st) _ eq_refl H2) as [_ Hl].
    eexists _, _. split; [reflexivity|]. cbn [steps rest].
    split; [reflexivity|exact Hl].
  - destruct (Nat.leb_spec 3 (length (FindStringSubmatch cmdRE (rest st))))
      as [H3|H3]; [|right; eexists; reflexivity].
    destruct (cmdRE_consumes (rest st) _ eq_refl H3) as [_ Hl].
    destruct (parseParams_cases
                (skipn 1 (idx (FindStringSubmatch cmdRE (rest st)) 0)))
      as [(vs & ->)|(f & ->)]; [left|right; eexists; reflexivity].
    eexists _, _. split; [reflexivity|]. cbn [steps rest].
    split; [reflexivity|exact Hl].
Qed.

(** The loop never runs out of fuel, and fuel beyond the length of the
    text changes nothing. *)
Lemma scan_fuel n m st :
  length (rest st) <= n -> length (rest st) <= m ->
  scan n st = scan m st /\ snd (scan n st) <> OutOfFuel /\
  snd (scan n st) <> NilDereference.
Proof.
  revert m st. induction n as [|n IH]; intros m st Hn Hm.
  - destruct (rest st) eqn:E; [|cbn in Hn; lia].
    destruct m; cbn [scan]; rewrite E; cbn; repeat split; discriminate.
  - destruct (rest st) as [|c t] eqn:E.
    + destruct m; cbn [scan]; rewrite E; cbn; repeat split; discriminate.
    + destruct m as [|m]; [cbn in Hm; lia|].
      cbn [scan]. rewrite E.
      destruct (iteration_cases st) as [(st' & step & -> & _ & Hl)|(f & ->)].
      * rewrite E in Hl. cbn [length] in *. apply IH; lia.
      * cbn. repeat split; discriminate.
Qed.

Lemma iteration_with_steps pre st :
  iteration (with_steps pre st) =
  st' <- iteration st ;; Returned (with_steps pre st').
Proof.
  unfold iteration. cbn [with_steps rest steps numZs].
  destruct (length (FindStringSubmatch closeRE (rest st)) =? 2).
  - unfold with_steps. cbn [bind rest steps numZs].
    rewrite app_assoc. reflexivity.
  - destruct (3 <=? length (FindStringSubmatch cmdRE (rest st)));
      [|reflexivity].
    destruct (parseParams _); try reflexivity.
    unfold with_steps. cbn [bind rest steps numZs].
    rewrite app_assoc. reflexivity.
Qed.

(** The steps a glyph already has are left in place: the loop only
    appends, and what it appends does not depend on them. *)
Lemma scan_with_steps pre n st :
  scan n (with_steps pre st) =
  (with_steps pre (fst (scan n st)), snd (scan n st)).
Proof.
  revert st. induction n as [|n IH]; intro st.
  - cbn [scan with_steps rest]. destruct (rest st); reflexivity.
  - cbn [scan]. change (rest (with_steps pre st)) with (rest st).
    destruct (rest st) as [|c t] eqn:E; [reflexivity|].
    rewrite iteration_with_steps.
    destruct (iteration st); try reflexivity. apply IH.
Qed.

Lemma scan_nil n st : rest st = [] -> scan n st = (st, Returned tt).
Proof. intro H. destruct n; cbn [scan]; rewrite H; reflexivity. Qed.

Lemma advance_length k st st' :
  advance k st = Some st' -> length (rest st') <= length (rest st).
Proof.
  revert st. induction k as [|k IH]; intros st H.
  - injection H as <-. lia.
  - cbn [advance] in H. destruct (rest st) as [|c t] eqn:E; [discriminate|].
    destruct (iteration_cases st) as [(st1 & step & Hi & _ & Hl)|(f & Hi)];
      rewrite Hi in H; [|discriminate].
    apply IH in H. rewrite E in *. lia.
Qed.

Lemma scan_advance k n st st' :
  advance k st = Some st' -> length (rest st) <= n ->
  scan n st = scan n st'.
Proof.
  revert n st. induction k as [|k IH]; intros n st H Hn.
  - injection H as <-. reflexivity.
  - cbn [advance] in H. destruct (rest st) as [|c t] eqn:E; [discriminate|].
    destruct (iteration_cases st) as [(st1 & step & Hi & _ & Hl)|(f & Hi)];
      rewrite Hi in H; [|discriminate].
    destruct n as [|n]; [cbn in Hn; lia|].
    cbn [scan]. rewrite E, Hi. rewrite E in Hl. cbn [length] in *.
    rewrite (IH n st1 H) by lia.
    pose proof (advance_length _ _ _ H).
    apply (scan_fuel n (S n) st'); lia.
Qed.

Lemma scan_unknown n st :
  rest st <> [] ->
  FindStringSubmatch closeRE (rest st) = [] ->
  FindStringSubmatch cmdRE (rest st) = [] ->
  scan (S n) st = (st, Fatalf (Unknown_path_command (rest st))).
Proof.
  intros Hne Hc Hm. cbn [scan].
  destruct (rest st) as [|c t] eqn:E; [congruence|].
  unfold iteration. rewrite E, Hc, Hm. reflexivity.
Qed.

(** One iteration on a command letter followed by a well-separated
    run. *)
Lemma iteration_command st c items r :
  rest st = c :: run_text items ++ r ->
  isCmdLetter c = true -> items <> [] -> separated items r ->
  scanItem r = None ->
  iteration st =
  ps <- atofs (map token items) [] ;;
  Returned {| rest := r; steps := steps st ++ [command_step c ps];
              numZs := numZs st |}.
Proof.
  intros Hd Hc Hne Hsep Hr. unfold iteration. rewrite Hd.
  rewrite closeRE_match.
  destruct (cmd_letter_ascii _ Hc) as [_ ->].
  cbn [length Nat.eqb].
  rewrite (cmdRE_items c items r Hc Hne Hsep Hr).
  cbn [length Nat.leb idx nth skipn].
  unfold parseParams.
  rewrite parseParams_loop_items;
    [|exact (separated_nil_tail _ _ Hsep)|apply le_n].
  destruct (atofs (map token items) []); try reflexivity.
  change (c :: run_text items ++ r) with ((c :: run_text items) ++ r).
  rewrite skipn_app, Nat.sub_diag, skipn_all. reflexivity.
Qed.

Lemma iteration_close st c t :
  rest st = c :: t -> isCloseLetter c = true ->
  iteration st =
  Returned {| rest := dropWhile isSpace t;
              steps := steps st ++ [command_step c []];
              numZs := numZs st + 1 |}.
Proof.
  intros Hd Hc. unfold iteration. rewrite Hd, closeRE_match, Hc.
  cbn [length Nat.eqb idx nth skipn]. rewrite skipn_takeWhile. reflexivity.
Qed.

Lemma closing_text_stops cs :
  Forall valid_closing cs -> stops isSpace (closing_text cs).
Proof.
  intros [|c cs' [Hc _] _]; [exact I|].
  cbn. apply close_letter_facts, Hc.
Qed.

Lemma scan_closings cs n st :
  Forall valid_closing cs -> rest st = closing_text cs ->
  length (rest st) <= n ->
  scan n st =
  ({| rest := []; steps := steps st ++ map close_step cs;
      numZs := numZs st + Z.of_nat (length cs) |}, Returned tt).
Proof.
  revert n st. induction cs as [|c cs IH]; intros n st Hv Hd Hn.
  - rewrite (scan_nil n st Hd). destruct st as [r s z]. cbn in *. subst r.
    rewrite app_nil_r, Z.add_0_r. reflexivity.
  - inversion Hv as [|? ? [Hc Hb] Hv']; subst.
    change (closing_text (c :: cs))
      with (letter c :: blanks c ++ closing_text cs) in Hd.
    rewrite Hd in Hn. destruct n as [|n]; [cbn in Hn; lia|].
    cbn [scan]. rewrite Hd, (iteration_close st _ _ Hd Hc).
    rewrite dropWhile_all by exact Hb.
    rewrite dropWhile_stops by (apply closing_text_stops, Hv').
    rewrite IH; [|exact Hv'|reflexivity|].
    + cbn [steps numZs map length]. rewrite <- app_assoc.
      f_equal. f_equal. lia.
    + cbn [rest length] in *. rewrite length_app in Hn. lia.
Qed.

(** ** [ParsePath] and the check after the loop *)

Lemma ParsePath_parse g d :
  effective_path g = Some d -> reaches_loop g ->
  ParsePath (Some g) = parse g d (notice g).
Proof.
  unfold effective_path, reaches_loop, notice, overridden, ParsePath.
  destruct (D g) as [d0|]; [|discriminate].
  destruct (DOrig g) as [[|c o]|].
  - intros [= <-] _. destruct (Unicode g); reflexivity.
  - intros [= <-] Hu. destruct (Unicode g) as [u|]; [reflexivity|].
    exfalso. apply Hu; reflexivity.
  - intros [= <-] _. destruct (Unicode g); reflexivity.
Qed.

(** The check after the loop, with the test of [Unicode] first: both
    branches on [GerberLP] dereference it. *)
Lemma validate_unfold g z log :
  validate g z log =
  if (1 <? z)%Z &&
     match GerberLP g with
     | None => true
     | Some lp => negb (Z.of_nat (length lp) =? z)%Z
     end
  then
    match Unicode g with
    | None => {| ending := NilDereference; glyph := Some g; logged := log |}
    | Some u =>
      {| ending := Returned tt; glyph := Some g;
         logged := log ++ [match GerberLP g with
                           | None => Warning_numZs_nil u z
                           | Some lp => Warning_numZs u z lp
                           end] |}
    end
  else {| ending := Returned tt; glyph := Some g; logged := log |}.
Proof.
  unfold validate. destruct (GerberLP g), (Unicode g); reflexivity.
Qed.

Lemma validate_glyph g z log : glyph (validate g z log) = Some g.
Proof.
  rewrite validate_unfold. destruct (_ && _); [|reflexivity].
  destruct (Unicode g); reflexivity.
Qed.

Lemma validate_quiet g z log :
  (z <= 1)%Z ->
  validate g z log =
  {| ending := Returned tt; glyph := Some g; logged := log |}.
Proof.
  intro Hz. rewrite validate_unfold.
  destruct (Z.ltb_spec 1 z); [lia|]. reflexivity.
Qed.

Lemma validate_unicode g u z log :
  Unicode g = Some u ->
  validate g z log =
  {| ending := Returned tt; glyph := Some g;
     logged := log ++ polarity_warning u (GerberLP g) z |}.
Proof.
  intro Hu. rewrite validate_unfold. unfold polarity_warning, polarity_differs.
  rewrite Hu.
  destruct (_ && _); [reflexivity|]. rewrite app_nil_r. reflexivity.
Qed.

Lemma validate_nil_unicode g z log :
  Unicode g = None ->
  validate g z log =
  {| ending := if polarity_differs (GerberLP g) z
               then NilDereference else Returned tt;
     glyph := Some g; logged := log |}.
Proof.
  intro Hu. rewrite validate_unfold. unfold polarity_differs. rewrite Hu.
  destruct (_ && _); reflexivity.
Qed.

Lemma validate_ending g z log :
  ending (validate g z log) = Returned tt \/
  (ending (validate g z log) = NilDereference /\ Unicode g = None /\ (1 < z)%Z).
Proof.
  rewrite !validate_unfold.
  destruct (Z.ltb_spec 1 z); cbn [andb]; [|left; reflexivity].
  destruct (match GerberLP g with None => true | Some _ => _ end);
    [|left; reflexivity].
  destruct (Unicode g); [left; reflexivity|right; auto].
Qed.

Lemma validate_logged g z log :
  exists w, logged (validate g z log) = log ++ w /\
            forallb (fun l => negb (is_notice l)) w = true.
Proof.
  rewrite validate_unfold.
  destruct (_ && _); [|exists []; rewrite app_nil_r; auto].
  destruct (Unicode g) as [u|]; [|exists []; rewrite app_nil_r; auto].
  eexists [_]. split; [reflexivity|]. destruct (GerberLP g); reflexivity.
Qed.

Lemma parse_glyph g d log :
  glyph (parse g d log) =
  Some (set_PathSteps g (steps (fst (scan (length d) (start g d))))).
Proof.
  unfold parse. fold (start g d).
  destruct (scan (length d) (start g d)) as [st e]. cbn [fst].
  destruct e; try reflexivity. apply validate_glyph.
Qed.

Lemma start_with_steps g d :
  start g d = with_steps (PathSteps g) {| rest := d; steps := []; numZs := 0 |}.
Proof. unfold start, with_steps. cbn. rewrite app_nil_r. reflexivity. Qed.

(** [parse] in terms of the state the loop stops in. *)
Lemma parse_returned g d log st :
  scan (length d) (start g d) = (st, Returned tt) ->
  parse g d log = validate (set_PathSteps g (steps st)) (numZs st) log.
Proof. unfold parse. fold (start g d). intros ->. reflexivity. Qed.

Lemma parse_fatal g d log st f :
  scan (length d) (start g d) = (st, Fatalf f) ->
  parse g d log =
  {| ending := Fatalf f; glyph := Some (set_PathSteps g (steps st));
     logged := log |}.
Proof. unfold parse. fold (start g d). intros ->. reflexivity. Qed.

Lemma ParsePath_no_override g d :
  D g = Some d -> DOrig g = None \/ DOrig g = Some [] ->
  ParsePath (Some g) = parse g d [].
Proof.
  intros Hd [Ho|Ho]; unfold ParsePath; rewrite Hd, Ho; reflexivity.
Qed.

Lemma ParsePath_override g d c o u :
  D g = Some d -> DOrig g = Some (c :: o) -> Unicode g = Some u ->
  ParsePath (Some g) = parse g (c :: o) [Warning_using_DOrig u].
Proof.
  intros Hd Ho Hu. unfold ParsePath. rewrite Hd, Ho, Hu. reflexivity.
Qed.

Lemma parse_paths g d o text log :
  ending (parse (with_paths g d o) text log) = ending (parse g text log) /\
  logged (parse (with_paths g d o) text log) = logged (parse g text log) /\
  steps_of (parse (with_paths g d o) text log) = steps_of (parse g text log).
Proof.
  unfold parse, steps_of.
  change (PathSteps (with_paths g d o)) with (PathSteps g).
  destruct (scan _ _) as [st e].
  destruct e; cbn [ending logged glyph]; try (repeat split; reflexivity).
  rewrite !validate_glyph.
  repeat split; rewrite !validate_unfold;
    cbn [GerberLP Unicode set_PathSteps with_paths];
    destruct (_ && _); try reflexivity; destruct (Unicode g); reflexivity.
Qed.

Lemma parse_log g text log :
  ending (parse g text log) = ending (parse g text []) /\
  logged (parse g text log) = log ++ logged (parse g text []) /\
  steps_of (parse g text log) = steps_of (parse g text []).
Proof.
  unfold parse, steps_of.
  destruct (scan _ _) as [st e].
  destruct e; cbn [ending logged glyph];
    try (rewrite app_nil_r; repeat split; reflexivity).
  rewrite !validate_glyph.
  repeat split; rewrite !validate_unfold;
    destruct (_ && _); cbn [ending logged]; rewrite ?app_nil_r; try reflexivity;
    destruct (Unicode _); cbn [ending logged]; rewrite ?app_nil_r; reflexivity.
Qed.

Lemma parse_no_notice g text :
  forallb (fun l => negb (is_notice l)) (logged (parse g text [])) = true.
Proof.
  unfold parse. destruct (scan _ _) as [st e].
  destruct e; try reflexivity.
  destruct (validate_logged (set_PathSteps g (steps st)) (numZs st) [])
    as (w & -> & Hw). exact Hw.
Qed.

Lemma ParsePath_no_OutOfFuel (gp : option Glyph) :
  ending (ParsePath gp) <> OutOfFuel.
Proof.
  destruct gp as [g|]; [|discriminate]. unfold ParsePath.
  destruct (D g) as [d0|]; [|discriminate].
  assert (Hparse : forall text log, ending (parse g text log) <> OutOfFuel).
  { intros text log. unfold parse.
    destruct (scan_fuel (length text) (length text)
                {| rest := text; steps := PathSteps g; numZs := 0 |}
                (le_n _) (le_n _)) as (_ & Hne & _).
    destruct (scan _ _) as [st0 e]. cbn [snd] in Hne.
    destruct e; cbn [ending]; try congruence; try discriminate.
    destruct (validate_ending (set_PathSteps g (steps st0)) (numZs st0) log)
      as [->|[-> _]]; discriminate. }
  destruct (DOrig g) as [[|c o]|]; try apply Hparse.
  destruct (Unicode g); [apply Hparse|discriminate].
Qed.

(** ** Whole paths *)

Lemma command_head_byte (c : ascii) :
  isCloseLetter c || isCmdLetter c = true ->
  isSpace c = false /\ isDigit c = false /\ isSep c = false /\
  Ascii.eqb c "-" = false /\ Ascii.eqb c "." = false /\
  (byteval c <? 128)%N = true.
Proof.
  bytes c; vm_compute; intro; try discriminate; repeat split; reflexivity.
Qed.

Lemma not_token_start (c : ascii) (t : gostring) :
  isSpace c = false -> isDigit c = false -> Ascii.eqb c "-" = false ->
  scanItem (c :: t) = None.
Proof.
  intros Hs Hd Hm. unfold scanItem. cbn [dropWhile]. rewrite Hs.
  unfold scanNumber. rewrite Hm. unfold scanUnsigned. rewrite Hd.
  reflexivity.
Qed.

Lemma scanItem_command_head (r : gostring) :
  command_head r -> scanItem r = None.
Proof.
  destruct r as [|c t]; [reflexivity|]. intro H.
  destruct (command_head_byte c H) as (Hs & Hd & _ & Hm & _).
  apply not_token_start; assumption.
Qed.

Lemma item_text_head (it : numitem) :
  valid_item it -> exists c a, item_text it = c :: a.
Proof.
  intros (_ & Htok & _). unfold item_text.
  destruct (numeric_token_head _ Htok) as (c & t & -> & _).
  destruct (lead it) as [|l ls]; cbn; eauto.
Qed.

Lemma ends_item_command_head (tok sep r : gostring) :
  command_head r -> ends_item tok sep r.
Proof.
  intro H. unfold ends_item. destruct sep; [|exact I].
  destruct r as [|c t]; [split; exact I|].
  destruct (command_head_byte c H) as (_ & Hd & Hp & _ & Hdot & _).
  cbn. repeat split; try assumption.
  right. intros ->. discriminate Hdot.
Qed.

(** A run that ends at the end of the text ends as well before a
    command letter. *)
Lemma separated_command_tail (items : list numitem) (r : gostring) :
  separated items [] -> command_head r -> separated items r.
Proof.
  intros Hsep Hr. induction items as [|it rest IH]; [exact I|].
  destruct Hsep as (Hv & He & Hs). cbn [separated].
  split; [exact Hv|]. split; [|exact (IH Hs)].
  destruct rest as [|it2 rest'].
  - cbn. apply ends_item_command_head, Hr.
  - destruct Hs as (Hv2 & _ & _).
    destruct (item_text_head it2 Hv2) as (c & a & Hc).
    unfold run_text in *. cbn [map concat] in *. rewrite Hc in *.
    cbn [app] in *. exact (ends_item_head _ _ _ _ _ He).
Qed.

Lemma path_text_cons (s : segment) (segs : list segment) :
  path_text (s :: segs) = segment_text s ++ path_text segs.
Proof. reflexivity. Qed.

Lemma path_text_app (a b : list segment) :
  path_text (a ++ b) = path_text a ++ path_text b.
Proof. unfold path_text. rewrite map_app, concat_app. reflexivity. Qed.

Lemma path_tokens_app (a b : list segment) :
  path_tokens (a ++ b) = path_tokens a ++ path_tokens b.
Proof. unfold path_tokens. rewrite map_app, concat_app. reflexivity. Qed.

Lemma closings_app (a b : list segment) :
  closings (a ++ b) = (closings a + closings b)%Z.
Proof. unfold closings. rewrite filter_app, length_app. lia. Qed.

Lemma closings_nonneg (segs : list segment) : (0 <= closings segs)%Z.
Proof. unfold closings. lia. Qed.

Lemma path_text_head (segs : list segment) :
  Forall valid_segment segs -> command_head (path_text segs).
Proof.
  intros [|s segs' Hs _]; [exact I|].
  rewrite path_text_cons.
  destruct s as [c|c items]; cbn [segment_text app command_head].
  - destruct Hs as [-> _]. reflexivity.
  - destruct Hs as (-> & _). apply orb_true_r.
Qed.

Lemma command_head_stops (r : gostring) : command_head r -> stops isSpace r.
Proof.
  destruct r as [|c t]; [intros _; exact I|]. intro H.
  apply (command_head_byte c H).
Qed.

(** The loop on a sequence of commands: one step for each. *)
Lemma scan_segments (segs : list segment) (n : nat) (st : scanner) :
  Forall valid_segment segs -> Forall converts (path_tokens segs) ->
  rest st = path_text segs -> length (rest st) <= n ->
  scan n st =
  ({| rest := []; steps := steps st ++ map segment_step segs;
      numZs := numZs st + closings segs |}, Returned tt).
Proof.
  revert n st. induction segs as [|s segs IH]; intros n st Hv Hc Hd Hn.
  - rewrite (scan_nil n st Hd). destruct st as [r s z]. cbn in *. subst r.
    rewrite app_nil_r, Z.add_0_r. reflexivity.
  - inversion Hv as [|? ? Hs Hv']; subst.
    pose proof (path_text_head segs Hv') as Hh.
    rewrite path_text_cons in Hd.
    destruct s as [c|c items].
    + destruct Hs as [Hl Hb]. cbn [segment_text app] in Hd.
      rewrite Hd in Hn. destruct n as [|n]; [cbn in Hn; lia|].
      cbn [scan]. rewrite Hd, (iteration_close st _ _ Hd Hl).
      rewrite dropWhile_all by exact Hb.
      rewrite dropWhile_stops by (apply command_head_stops, Hh).
      rewrite IH; [|exact Hv'|exact Hc|reflexivity|].
      * cbn [steps numZs map segment_step]. rewrite <- app_assoc.
        change (closings (Closing c :: segs))
          with (closings ([Closing c] ++ segs)).
        rewrite closings_app. change (closings [Closing c]) with 1%Z.
        f_equal. f_equal. lia.
      * cbn [rest length] in *. rewrite length_app in Hn. lia.
    + destruct Hs as (Hl & Hne & Hsep). cbn [segment_text app] in Hd.
      change (path_tokens (Drawing c items :: segs))
        with (map token items ++ path_tokens segs) in Hc.
      apply Forall_app in Hc as [Hc1 Hc2].
      rewrite Hd in Hn. destruct n as [|n]; [cbn in Hn; lia|].
      cbn [scan]. rewrite Hd.
      rewrite (iteration_command st c items (path_text segs) Hd Hl Hne
                 (separated_command_tail _ _ Hsep Hh)
                 (scanItem_command_head _ Hh)).
      rewrite (atofs_converts _ [] Hc1). cbn [bind app].
      rewrite IH; [|exact Hv'|exact Hc2|reflexivity|].
      * cbn [steps numZs map segment_step]. rewrite <- app_assoc.
        change (closings (Drawing c items :: segs)) with (closings segs).
        reflexivity.
      * cbn [rest length] in *. rewrite length_app in Hn. lia.
Qed.

(** A sequence of several bytes is decoded only when its second byte is
    a continuation byte. *)
Lemma decode_continuation (c : ascii) (t : gostring) :
  (128 <= byteval c)%N ->
  fst (utf8.DecodeRuneInString (c :: t)) <> utf8.RuneError ->
  exists c1 t1,
    t = c1 :: t1 /\ (128 <= byteval c1)%N /\
    2 <= snd (utf8.DecodeRuneInString (c :: t)).
Proof.
  intros Hc. unfold utf8.DecodeRuneInString.
  destruct (utf8.first (byteval c)) as [| |sz lo hi] eqn:Ef;
    [unfold utf8.first in Ef;
     destruct (N.ltb_spec (byteval c) 128); [lia|];
     repeat match type of Ef with
            | (if ?b then _ else _) = _ => destruct b
            end; discriminate
    |cbn; congruence|].
  assert (Hlo : (128 <= lo)%N /\ 2 <= sz).
  { unfold utf8.first, utf8.locb in Ef.
    repeat match type of Ef with
           | (if ?b then _ else _) = _ => destruct b
           end; try discriminate; injection Ef as <- <- <-; lia. }
  destruct Hlo as [Hlo Hsz].
  destruct (length (c :: t) <? sz); [cbn; congruence|].
  destruct t as [|c1 t1]; [cbn; congruence|].
  destruct (utf8.outside lo hi (byteval c1)) eqn:Eo; [cbn; congruence|].
  intros Hr. exists c1, t1. split; [reflexivity|].
  split.
  - unfold utf8.outside in Eo.
    destruct (N.ltb_spec (byteval c1) lo); [discriminate|]. lia.
  - repeat match goal with
           | |- context [if ?b then _ else _] => destruct b
           | |- context [match ?l with [] => _ | _ :: _ => _ end] =>
             destruct l
           end; cbn [fst snd] in *; try congruence; lia.
Qed.

Lemma nonascii_not_letter (x : rune) :
  cmatch true (OneOf "mlhvcsqta") x = true -> x <> utf8.RuneError.
Proof. intros H ->. vm_compute in H. discriminate H. Qed.

Lemma nonascii_byte (c : ascii) :
  (128 <=? byteval c)%N = true ->
  isSpace c = false /\ isDigit c = false /\ Ascii.eqb c "-" = false /\
  isCloseLetter c = false /\ isCmdLetter c = false.
Proof.
  bytes c; vm_compute; intro; try discriminate; repeat split; reflexivity.
Qed.

(** [parseParams] on a text that does not start an item. *)
Lemma parseParams_no_item (d : gostring) :
  d <> [] -> scanItem d = None ->
  parseParams d = Fatalf (parseParams_unable_to_parse d).
Proof.
  intros Hne Hs. destruct d as [|c t]; [congruence|].
  unfold parseParams. cbn [length]. rewrite parseParams_loop_S, Hs.
  reflexivity.
Qed.

(** A match of cmdRE that starts with a byte outside ASCII: the slice
    [m[0][1:]] starts with a continuation byte. *)
Lemma cmdRE_nonascii (c : ascii) (t : gostring) (m : list gostring) :
  (128 <= byteval c)%N ->
  FindStringSubmatch cmdRE (c :: t) = m -> 3 <= length m ->
  exists c1 t1, skipn 1 (idx m 0) = c1 :: t1 /\ (128 <= byteval c1)%N.
Proof.
  intros Hc <- Hm. rewrite cmdRE_match in *.
  unfold step in *. unfold utf8.RuneSelf in *.
  destruct (N.ltb_spec (byteval c) 128); [lia|].
  destruct (utf8.DecodeRuneInString (c :: t)) as [x w] eqn:Ed.
  destruct (cmatch true (OneOf "mlhvcsqta") x) eqn:Ex; [|cbn in Hm; lia].
  destruct (decode_continuation c t Hc) as (c1 & t1 & -> & Hc1 & Hw).
  { rewrite Ed. cbn [fst]. apply nonascii_not_letter, Ex. }
  rewrite Ed in Hw. cbn [snd] in Hw.
  destruct (scanItem (skipn w (c :: c1 :: t1))) as [[[s1 s2] s3]|] eqn:E;
    [|cbn in Hm; lia].
  pose proof (scanRun_length (length s3) s3 (token_at s1 s2)) as Hr.
  destruct (scanRun _ _ _) as [sF tok]. cbn [fst] in Hr.
  apply scanItem_shorter in E. rewrite length_skipn in E.
  cbn [length] in E. cbn [idx nth].
  destruct (length (c :: c1 :: t1) - length sF) as [|[|k]] eqn:Ek;
    [cbn [length] in Ek; lia|cbn [length] in Ek; lia|].
  cbn [firstn skipn]. eauto.
Qed.

(** One iteration, by the first byte of the text. *)
Lemma iteration_head (st : scanner) (c : ascii) (t : gostring) :
  rest st = c :: t ->
  (isCloseLetter c = true /\
   iteration st =
   Returned {| rest := dropWhile isSpace t;
               steps := steps st ++ [command_step c []];
               numZs := numZs st + 1 |}) \/
  (isCmdLetter c = true /\
   ((exists items r,
       items <> [] /\ t = run_text items ++ r /\ separated items r /\
       iteration st =
       ps <- atofs (map token items) [] ;;
       Returned {| rest := r; steps := steps st ++ [command_step c ps];
                   numZs := numZs st |}) \/
    iteration st = Fatalf (Unknown_path_command (c :: t)))) \/
  (isCloseLetter c = false /\ isCmdLetter c = false /\
   (iteration st = Fatalf (Unknown_path_command (c :: t)) \/
    exists c1 t1,
      (128 <= byteval c)%N /\ (128 <= byteval c1)%N /\
      iteration st = Fatalf (parseParams_unable_to_parse (c1 :: t1)))).
Proof.
  intro Hd.
  destruct (isCloseLetter c) eqn:Hz.
  { left. split; [reflexivity|]. apply iteration_close; assumption. }
  right. unfold iteration. rewrite Hd, closeRE_match, Hz.
  cbn [length Nat.eqb].
  destruct (isCmdLetter c) eqn:Hl; [left|right]; (split; [reflexivity|]).
  - destruct (Nat.leb_spec 3 (length (FindStringSubmatch cmdRE (c :: t))))
      as [H3|H3].
    + left.
      destruct (cmdRE_run c t _ Hl eq_refl H3)
        as (items & r & Hne & -> & Hsep & ->).
      exists items, r. repeat split; try assumption.
      cbn [idx nth skipn]. unfold parseParams.
      rewrite parseParams_loop_items;
        [|exact (separated_nil_tail _ _ Hsep)|apply le_n].
      destruct (atofs (map token items) []); try reflexivity.
      change (c :: run_text items ++ r) with ((c :: run_text items) ++ r).
      rewrite skipn_app, Nat.sub_diag, skipn_all. reflexivity.
    + right. reflexivity.
  - split; [reflexivity|].
    destruct (Nat.leb_spec 3 (length (FindStringSubmatch cmdRE (c :: t))))
      as [H3|H3]; [|left; reflexivity].
    right.
    assert (Hc : (128 <= byteval c)%N).
    { destruct (N.lt_ge_cases (byteval c) 128) as [Ha|Ha]; [|exact Ha].
      rewrite (cmdRE_ascii c t Ha), Hl in H3. cbn in H3. lia. }
    destruct (cmdRE_nonascii c t _ Hc eq_refl H3) as (c1 & t1 & E & Hc1).
    exists c1, t1. repeat split; try assumption.
    rewrite E, parseParams_no_item; [reflexivity|discriminate|].
    apply N.leb_le in Hc1.
    destruct (nonascii_byte c1 Hc1) as (Hs & Hdg & Hm & _).
    apply not_token_start; assumption.
Qed.

(** ** The values [atof] returns *)

Lemma shr_1_nonneg (mrs : shr_record) :
  (0 <= shr_m mrs)%Z -> (0 <= shr_m (shr_1 mrs))%Z.
Proof.
  destruct mrs as [m r s]. cbn [shr_m]. intro H.
  destruct m as [|[p|p|]|p]; cbn; lia.
Qed.

Lemma iter_shr_1_nonneg (p : positive) (mrs : shr_record) :
  (0 <= shr_m mrs)%Z -> (0 <= shr_m (iter_pos shr_1 p mrs))%Z.
Proof.
  revert mrs. induction p as [p IH|p IH|]; intros mrs H; cbn [iter_pos].
  - apply IH, IH, shr_1_nonneg, H.
  - apply IH, IH, H.
  - apply shr_1_nonneg, H.
Qed.

Lemma shr_fexp_nonneg (m e : Z) (l : location) :
  (0 <= m)%Z -> (0 <= shr_m (fst (shr_fexp prec emax m e l)))%Z.
Proof.
  intro H. unfold shr_fexp, shr.
  assert (H0 : (0 <= shr_m (shr_record_of_loc m l))%Z)
    by (destruct l as [|[| |]]; exact H).
  destruct (_ - e)%Z; cbn [fst]; try exact H0.
  apply iter_shr_1_nonneg, H0.
Qed.

Lemma round_nearest_even_nonneg (m : Z) (l : location) :
  (0 <= m)%Z -> (0 <= round_nearest_even m l)%Z.
Proof.
  intro H. unfold round_nearest_even.
  destruct l as [|[| |]]; try destruct (Z.even m); lia.
Qed.

(** Rounding gives a zero, a finite number or an infinity, never a
    NaN. *)
Lemma binary_round_not_nan (sx : bool) (mx : positive) (ex : Z) :
  binary_round prec emax sx mx ex <> S754_nan.
Proof.
  unfold binary_round.
  destruct (shl_align _ _ _) as [mz ez]. unfold binary_round_aux.
  pose proof (shr_fexp_nonneg (Z.pos mz) ez loc_Exact ltac:(lia)) as H1.
  destruct (shr_fexp prec emax (Z.pos mz) ez loc_Exact) as [mrs' e'].
  cbn [fst] in H1.
  pose proof (shr_fexp_nonneg
                (round_nearest_even (shr_m mrs') (loc_of_shr_record mrs'))
                e' loc_Exact
                (round_nearest_even_nonneg _ _ H1)) as H2.
  destruct (shr_fexp prec emax _ e' loc_Exact) as [mrs'' e''].
  cbn [fst] in H2.
  destruct (shr_m mrs''); [discriminate| |lia].
  destruct (_ <=? _)%Z; discriminate.
Qed.

Lemma roundDecimal_not_nan (neg : bool) (mant : Z) (dp : nat) :
  roundDecimal neg mant dp <> S754_nan.
Proof.
  unfold roundDecimal. destruct (mant =? 0)%Z; [discriminate|].
  cbv zeta. unfold binary_normalize.
  destruct (_ * _)%Z; [discriminate| |]; apply binary_round_not_nan.
Qed.

(** What [ParseFloat] returns without error is finite. *)
Lemma ParseFloat_finite (s : gostring) :
  snd (ParseFloat s) = None -> isFinite (fst (ParseFloat s)) = true.
Proof.
  unfold ParseFloat. destruct (readFloat s) as [[[neg mant] dp]|];
    [|discriminate].
  pose proof (roundDecimal_not_nan neg mant dp) as Hn.
  destruct (roundDecimal neg mant dp); cbn; congruence.
Qed.

Lemma values_finite (toks : list gostring) :
  Forall converts toks -> forallb isFinite (map value toks) = true.
Proof.
  induction 1 as [|tok toks Hc _ IH]; [reflexivity|].
  cbn [map forallb]. rewrite IH, andb_true_r.
  apply ParseFloat_finite, Hc.
Qed.

(** ** The call on a whole path *)

(** Where the loop stops: after the commands of a prefix of its text,
    at the end of the text or at a text on which an iteration fails. *)
Lemma scan_outcome (n : nat) (st : scanner) :
  length (rest st) <= n ->
  exists segs r,
    rest st = path_text segs ++ r /\ Forall valid_segment segs /\
    Forall converts (path_tokens segs) /\
    fst (scan n st) =
      {| rest := r; steps := steps st ++ map segment_step segs;
         numZs := numZs st + closings segs |} /\
    match r with
    | [] => snd (scan n st) = Returned tt
    | _ :: _ => exists f, snd (scan n st) = Fatalf f /\
                          iteration (fst (scan n st)) = Fatalf f
    end.
Proof.
  revert st. induction n as [|n IH]; intros st Hn.
  - destruct (rest st) as [|c t] eqn:E; [|cbn in Hn; lia].
    rewrite (scan_nil 0 st E). exists [], [].
    repeat split; try constructor.
    destruct st as [r s z]. cbn in *. subst r.
    rewrite app_nil_r, Z.add_0_r. reflexivity.
  - destruct (rest st) as [|c t] eqn:E.
    + rewrite (scan_nil _ st E). exists [], [].
      repeat split; try constructor.
      destruct st as [r s z]. cbn in *. subst r.
      rewrite app_nil_r, Z.add_0_r. reflexivity.
    + assert (Hstop : forall f, iteration st = Fatalf f ->
                exists segs r,
                  c :: t = path_text segs ++ r /\ Forall valid_segment segs /\
                  Forall converts (path_tokens segs) /\
                  fst (st, @Fatalf unit f) =
                  {| rest := r; steps := steps st ++ map segment_step segs;
                     numZs := numZs st + closings segs |} /\
                  match r with
                  | [] => snd (st, @Fatalf unit f) = Returned tt
                  | _ :: _ =>
                    exists f', snd (st, @Fatalf unit f) = Fatalf f' /\
                               iteration (fst (st, @Fatalf unit f)) = Fatalf f'
                  end).
      { intros f Hi. exists [], (c :: t). cbn [fst snd].
        repeat split; try constructor.
        - destruct st as [r s z]. cbn in *. subst r.
          rewrite app_nil_r, Z.add_0_r. reflexivity.
        - exists f. split; [reflexivity|exact Hi]. }
      cbn [scan]. rewrite E. cbn [length] in Hn.
      destruct (iteration_head st c t E)
        as [(Hz & Hi)|[(Hl & [(items & r & Hne & Ht & Hsep & Hi)|Hi])
                      |(_ & _ & [Hi|(c1 & t1 & _ & _ & Hi)])]];
        rewrite Hi; try (apply Hstop; exact Hi).
      * pose proof (dropWhile_length isSpace t) as Hlen.
        match goal with
        | |- context [scan n ?s] =>
          destruct (IH s ltac:(cbn [rest]; lia))
            as (segs & r & Hr & Hv & Hc & Hf & Hend)
        end.
        cbn [rest steps numZs] in *.
        exists (Closing {| letter := c; blanks := takeWhile isSpace t |}
                :: segs), r.
        split; [|split; [|split; [|split]]].
        -- rewrite path_text_cons. cbn [segment_text letter blanks app].
           rewrite <- app_assoc, <- Hr, take_drop. reflexivity.
        -- constructor; [|exact Hv]. split; [exact Hz|apply takeWhile_all].
        -- exact Hc.
        -- rewrite Hf. cbn [map segment_step]. rewrite <- app_assoc.
           change (closings (Closing ?x :: segs))
             with (closings ([Closing x] ++ segs)).
           rewrite closings_app.
           change (closings [Closing _]) with 1%Z.
           unfold close_step. cbn [letter app]. f_equal. lia.
        -- exact Hend.
      * pose proof (separated_tokens _ _ Hsep) as Htoks.
        destruct (atofs_tokens (map token items) [] Htoks)
          as [[Hall Ha]|(tok & _ & _ & Ha)]; rewrite Ha in *;
          [|apply Hstop; exact Hi].
        cbn [bind app].
        match goal with
        | |- context [scan n ?s] =>
          destruct (IH s ltac:(cbn [rest]; subst t;
                               rewrite length_app in Hn; lia))
            as (segs & r' & Hr & Hv & Hc & Hf & Hend)
        end.
        cbn [rest steps numZs] in *.
        exists (Drawing c items :: segs), r'.
        split; [|split; [|split; [|split]]].
        -- rewrite path_text_cons. cbn [segment_text app].
           rewrite <- app_assoc. congruence.
        -- constructor; [|exact Hv].
           repeat split; try assumption.
           exact (separated_nil_tail _ _ Hsep).
        -- change (path_tokens (Drawing c items :: segs))
             with (map token items ++ path_tokens segs).
           apply Forall_app. split; assumption.
        -- rewrite Hf. cbn [map segment_step]. rewrite <- app_assoc.
           reflexivity.
        -- exact Hend.
Qed.

(** The loop returns only on a sequence of commands. *)
Lemma scan_returned (n : nat) (st st' : scanner) :
  length (rest st) <= n -> scan n st = (st', Returned tt) ->
  exists segs,
    rest st = path_text segs /\ Forall valid_segment segs /\
    Forall converts (path_tokens segs) /\
    st' = {| rest := []; steps := steps st ++ map segment_step segs;
             numZs := numZs st + closings segs |}.
Proof.
  intros Hn Hs.
  destruct (scan_outcome n st Hn) as (segs & r & Hr & Hv & Hc & Hf & Hend).
  rewrite Hs in *. cbn [fst snd] in *.
  destruct r as [|c t]; [|destruct Hend as (f & Hf' & _); discriminate].
  exists segs. rewrite app_nil_r in Hr. repeat split; assumption.
Qed.

(** Why an iteration fails. *)
Lemma iteration_fatal (st : scanner) (f : fatal) :
  iteration st = Fatalf f ->
  f = Unknown_path_command (rest st) \/
  (exists tok, f = unable_to_parse_as_float64 tok /\ numeric_token tok /\
               snd (ParseFloat tok) = Some ErrRange) \/
  (exists c t c1 t1,
     rest st = c :: t /\ (128 <= byteval c)%N /\
     f = parseParams_unable_to_parse (c1 :: t1) /\ (128 <= byteval c1)%N).
Proof.
  intro Hi. destruct (rest st) as [|c t] eqn:E.
  { left. unfold iteration in Hi. rewrite E in Hi. cbn in Hi.
    congruence. }
  destruct (iteration_head st c t E)
    as [(Hz & Hi')|[(Hl & [(items & r & Hne & Ht & Hsep & Hi')|Hi'])
                   |(_ & _ & [Hi'|(c1 & t1 & Hc & Hc1 & Hi')])]];
    rewrite Hi' in Hi; try discriminate.
  - pose proof (separated_tokens _ _ Hsep) as Htoks.
    destruct (atofs_tokens (map token items) [] Htoks)
      as [[Hall Ha]|(tok & Hin & He & Ha)]; rewrite Ha in Hi;
      [discriminate|].
    right. left. exists tok. cbn [bind] in Hi.
    rewrite Forall_forall in Htoks.
    repeat split; [congruence|apply Htoks, Hin|exact He].
  - left. congruence.
  - left. congruence.
  - right. right. exists c, t, c1, t1. repeat split; try assumption.
    congruence.
Qed.

(** The call gets to its loop, or the notice of the override
    dereferences a nil [Unicode]. *)
Lemma ParsePath_cases (g : Glyph) (d : gostring) :
  effective_path g = Some d ->
  (reaches_loop g /\ ParsePath (Some g) = parse g d (notice g)) \/
  (overridden g = true /\ Unicode g = None /\
   ParsePath (Some g) =
   {| ending := NilDereference; glyph := Some g; logged := [] |}).
Proof.
  intro Hd.
  destruct (overridden g) eqn:Ho.
  - destruct (Unicode g) as [u|] eqn:Hu.
    + left. assert (Hg : reaches_loop g)
        by (intros _; rewrite Hu; discriminate).
      split; [exact Hg|apply ParsePath_parse; assumption].
    + right. repeat split.
      unfold effective_path, overridden, ParsePath in *.
      destruct (D g); [|discriminate].
      destruct (DOrig g) as [[|c o]|]; try discriminate.
      rewrite Hu. reflexivity.
  - left. assert (Hg : reaches_loop g) by (intro H; congruence).
    split; [exact Hg|apply ParsePath_parse; assumption].
Qed.

(** [parse] by the way its loop stops. *)
Lemma parse_outcome (g : Glyph) (d : gostring) (log : list logline) :
  exists segs r,
    d = path_text segs ++ r /\ Forall valid_segment segs /\
    Forall converts (path_tokens segs) /\
    match r with
    | [] =>
      parse g d log =
      validate (set_PathSteps g (PathSteps g ++ map segment_step segs))
               (closings segs) log
    | _ :: _ =>
      exists f,
        parse g d log =
        {| ending := Fatalf f;
           glyph := Some (set_PathSteps g
                            (PathSteps g ++ map segment_step segs));
           logged := log |} /\
        iteration {| rest := r;
                     steps := PathSteps g ++ map segment_step segs;
                     numZs := closings segs |} = Fatalf f
    end.
Proof.
  destruct (scan_outcome (length d) (start g d) (le_n _))
    as (segs & r & Hr & Hv & Hc & Hf & Hend).
  exists segs, r. cbn [start rest steps numZs] in *.
  repeat split; try assumption.
  destruct (scan (length d) (start g d)) as [st e] eqn:Es.
  cbn [fst snd] in *. subst st.
  destruct r as [|c t].
  - subst e. rewrite (parse_returned g d log _ Es). reflexivity.
  - destruct Hend as (f & -> & Hi). exists f.
    rewrite (parse_fatal g d log _ f Es). split; [reflexivity|].
    exact Hi.
Qed.

Lemma parse_segments (g : Glyph) (segs : list segment) (log : list logline) :
  Forall valid_segment segs -> Forall converts (path_tokens segs) ->
  parse g (path_text segs) log =
  validate (set_PathSteps g (PathSteps g ++ map segment_step segs))
           (closings segs) log.
Proof.
  intros Hv Hc.
  rewrite (parse_returned g _ log
             {| rest := [];
                steps := PathSteps g ++ map segment_step segs;
                numZs := closings segs |}); [reflexivity|].
  rewrite (scan_segments segs (length (path_text segs))
             (start g (path_text segs)) Hv Hc eq_refl (le_n _)).
  reflexivity.
Qed.

Lemma parse_not_fatal (g : Glyph) (d : gostring) (log : list logline) :
  (forall f, ending (parse g d log) <> Fatalf f) ->
  exists segs,
    d = path_text segs /\ Forall valid_segment segs /\
    Forall converts (path_tokens segs) /\
    parse g d log =
    validate (set_PathSteps g (PathSteps g ++ map segment_step segs))
             (closings segs) log.
Proof.
  intros Hnf.
  destruct (parse_outcome g d log) as (segs & r & Hd & Hv & Hc & Hend).
  destruct r as [|c t].
  - exists segs. rewrite app_nil_r in Hd. repeat split; assumption.
  - destruct Hend as (f & Hp & _). exfalso. apply (Hnf f).
    rewrite Hp. reflexivity.
Qed.

Lemma validate_not_fatal (g : Glyph) (z : Z) (log : list logline) (f : fatal) :
  ending (validate g z log) <> Fatalf f.
Proof.
  destruct (validate_ending g z log) as [->|[-> _]]; discriminate.
Qed.

Lemma set_PathSteps_same (g : Glyph) : set_PathSteps g (PathSteps g) = g.
Proof. destruct g; reflexivity. Qed.

Lemma steps_of_validate (g : Glyph) (z : Z) (log : list logline) :
  steps_of (validate g z log) = PathSteps g.
Proof. unfold steps_of. rewrite validate_glyph. reflexivity. Qed.

Lemma effective_path_None (g : Glyph) :
  effective_path g = None -> D g = None.
Proof.
  unfold effective_path, overridden. destruct (D g); [|reflexivity].
  destruct (DOrig g) as [[|c o]|]; discriminate.
Qed.

Lemma ParsePath_no_path (g : Glyph) :
  D g = None ->
  ParsePath (Some g) =
  {| ending := Returned tt; glyph := Some g; logged := [] |}.
Proof. intro H. unfold ParsePath. rewrite H. reflexivity. Qed.

Lemma segment_step_canonical (s : segment) :
  valid_segment s -> Forall converts (segment_tokens s) ->
  canonical_step (segment_step s).
Proof.
  destruct s as [c|c items]; cbn [valid_segment segment_tokens segment_step].
  - intros [Hl _] _. exists (letter c). split; [reflexivity|].
    left. split; [exact Hl|reflexivity].
  - intros (Hl & Hne & _) Hc. exists c. split; [reflexivity|].
    right. cbn [command_step Parameters]. split; [exact Hl|].
    split; [|apply values_finite, Hc].
    destruct items; [congruence|discriminate].
Qed.

Lemma segment_steps_canonical (segs : list segment) :
  Forall valid_segment segs -> Forall converts (path_tokens segs) ->
  Forall canonical_step (map segment_step segs).
Proof.
  induction 1 as [|s segs Hs _ IH]; intro Hc; [constructor|].
  change (path_tokens (s :: segs))
    with (segment_tokens s ++ path_tokens segs) in Hc.
  apply Forall_app in Hc as [Hc1 Hc2]. cbn [map].
  constructor; [apply segment_step_canonical; assumption|apply IH, Hc2].
Qed.

(** The check after the loop reads [Unicode] and [GerberLP] only. *)
Lemma validate_frame (g : Glyph) (s : list PathStep) (z : Z)
    (log : list logline) :
  validate (set_PathSteps g s) z log =
  {| ending := ending (validate g z log);
     glyph := Some (set_PathSteps g s);
     logged := logged (validate g z log) |}.
Proof.
  rewrite !validate_unfold. cbn [GerberLP Unicode set_PathSteps].
  destruct (_ && _); [|reflexivity]. destruct (Unicode g); reflexivity.
Qed.

(** [parse] on a glyph that has other steps: the same ending and lines,
    and the same steps appended. *)
Lemma parse_old_steps (g : Glyph) (text : gostring) (log : list logline) :
  exists new,
    forall old,
      parse (set_PathSteps g old) text log =
      {| ending := ending (parse g text log);
         glyph := Some (set_PathSteps g (old ++ new));
         logged := logged (parse g text log) |}.
Proof.
  exists (steps (fst (scan (length text)
                        {| rest := text; steps := []; numZs := 0 |}))).
  intro old. unfold parse.
  change (PathSteps (set_PathSteps g old)) with old.
  assert (E : forall p,
            {| rest := text; steps := p; numZs := 0 |} =
            with_steps p {| rest := text; steps := []; numZs := 0 |})
    by (intro p; unfold with_steps; cbn; rewrite app_nil_r; reflexivity).
  rewrite (E old), (E (PathSteps g)), !scan_with_steps.
  destruct (scan (length text) {| rest := text; steps := []; numZs := 0 |})
    as [st e].
  cbn [fst snd with_steps steps numZs].
  destruct e; try reflexivity.
  change (set_PathSteps (set_PathSteps g old) (old ++ steps st))
    with (set_PathSteps g (old ++ steps st)).
  rewrite (validate_frame g (old ++ steps st)).
  rewrite (validate_frame g (PathSteps g ++ steps st)). reflexivity.
Qed.

Lemma ParsePath_old_steps (g : Glyph) :
  exists new,
    forall old,
      ParsePath (Some (set_PathSteps g old)) =
      {| ending := ending (ParsePath (Some g));
         glyph := Some (set_PathSteps g (old ++ new));
         logged := logged (ParsePath (Some g)) |}.
Proof.
  unfold ParsePath. cbn [D DOrig Unicode set_PathSteps].
  destruct (D g) as [d0|];
    [|exists []; intro old; rewrite app_nil_r; reflexivity].
  destruct (DOrig g) as [[|c o]|]; try apply parse_old_steps.
  destruct (Unicode g); [apply parse_old_steps|].
  exists []; intro old; rewrite app_nil_r; reflexivity.
Qed.

Lemma ParsePath_on_parse (g : Glyph) (d : gostring) :
  ending (ParsePath_on g d) = ending (parse g d []) /\
  logged (ParsePath_on g d) = logged (parse g d []) /\
  steps_of (ParsePath_on g d) = steps_of (parse g d []).
Proof.
  unfold ParsePath_on.
  rewrite (ParsePath_no_override (with_paths g (Some d) None) d
             eq_refl (or_introl eq_refl)).
  apply parse_paths.
Qed.

(** ** [parseParams] on any text *)

Lemma scanRun_stops (n : nat) (s tok : gostring) :
  length s <= n -> scanItem (fst (scanRun n s tok)) = None.
Proof.
  revert s tok. induction n as [|n IH]; intros s tok Hn.
  - destruct s; [reflexivity|cbn in Hn; lia].
  - cbn [scanRun]. destruct (scanItem s) as [[[s1 s2] s3]|] eqn:E.
    + apply IH. apply scanItem_shorter in E. lia.
    + exact E.
Qed.

(** The loop of [parseParams] on a run of items and the text [r] after
    it: the tokens are converted in turn, then the loop goes on at
    [r]. *)
Lemma parseParams_loop_run (items : list numitem) (r : gostring) (n : nat)
    (acc : list float64) :
  separated items r -> length (run_text items ++ r) <= n ->
  parseParams_loop n (run_text items ++ r) acc =
  vs <- atofs (map token items) acc ;; parseParams_loop (length r) r vs.
Proof.
  revert n acc. induction items as [|it rest IH]; intros n acc Hsep Hn.
  - cbn [run_text map concat app atofs bind] in *.
    apply (parseParams_loop_fuel n (length r) r acc Hn (le_n _)).
  - pose proof (scanItem_items it rest r Hsep) as Hs.
    pose proof (scanItem_shorter _ _ _ _ Hs) as Hl.
    destruct (run_text (it :: rest) ++ r) as [|c t] eqn:E.
    { cbn [length] in Hl. lia. }
    destruct n as [|n]; [cbn in Hn; lia|].
    rewrite parseParams_loop_S, Hs, token_at_app.
    cbn [map atofs]. destruct (atof (token it)) as [v| | |]; try reflexivity.
    cbn [bind]. apply IH; [apply Hsep|]. cbn [length] in *. lia.
Qed.

Lemma atofs_first_failure (pre : list gostring) (tok : gostring)
    (post : list gostring) (acc : list float64) :
  Forall converts pre -> ~ converts tok ->
  atofs (pre ++ tok :: post) acc = Fatalf (unable_to_parse_as_float64 tok).
Proof.
  intros Hpre Htok. revert acc.
  induction Hpre as [|p pre Hp _ IH]; intro acc; cbn [app atofs].
  - unfold atof, converts in *.
    destruct (ParseFloat tok) as [v [e|]]; [reflexivity|].
    exfalso. apply Htok. reflexivity.
  - unfold atof at 1. unfold converts in Hp.
    destruct (ParseFloat p) as [v [e|]]; [discriminate|].
    cbn [bind]. apply IH.
Qed.

Lemma close_letter_not_cmd (c : ascii) :
  isCloseLetter c = true ->
  isCmdLetter c = false /\ (byteval c <? 128)%N = true.
Proof.
  bytes c; vm_compute; intro; try discriminate; split; reflexivity.
Qed.

Lemma firstn_prefix (n : nat) (d : gostring) :
  d = firstn n d ++ skipn (length (firstn n d)) d.
Proof.
  revert d. induction n as [|n IH]; intros [|c t]; cbn; try reflexivity.
  f_equal. apply IH.
Qed.

(** * The claims *)

(** ** C1: one command and its numeric run *)

(** C1, as corrected.  For a text made of one command letter (one of
    m, l, h, v, c, s, q, t, a in either case) and a well-separated run
    of numeric tokens, every one of which converts to a float64 without
    range error, the call returns and appends exactly one step: its
    command is the letter as written and its parameters are the values
    of the tokens from left to right. *)
Theorem single_command_parsed (g : Glyph) (c : ascii) (items : list numitem) :
  isCmdLetter c = true -> items <> [] -> separated items [] ->
  Forall converts (map token items) ->
  effective_path g = Some (c :: run_text items) -> reaches_loop g ->
  ParsePath (Some g) =
  {| ending := Returned tt;
     glyph := Some (set_PathSteps g
                (PathSteps g ++
                 [command_step c (map value (map token items))]));
     logged := notice g |}.
Proof.
  intros Hc Hne Hsep Hconv Hd Hg.
  rewrite (ParsePath_parse g _ Hd Hg).
  rewrite (parse_returned g _ (notice g)
             {| rest := [];
                steps := PathSteps g ++
                         [command_step c (map value (map token items))];
                numZs := 0 |}).
  - apply validate_quiet. cbn. lia.
  - cbn [length scan start rest].
    assert (Hrest : rest (start g (c :: run_text items))
                    = c :: run_text items ++ [])
      by (cbn; rewrite app_nil_r; reflexivity).
    rewrite (iteration_command _ c items [] Hrest Hc Hne Hsep eq_refl).
    rewrite (atofs_converts _ [] Hconv). cbn [app].
    apply scan_nil. reflexivity.
Qed.

Lemma single_command_parsed_witness :
  ParsePath (Some (glyph_of None (Some (str "m10,20 -3.5")) None None)) =
  {| ending := Returned tt;
     glyph := Some (set_PathSteps
                (glyph_of None (Some (str "m10,20 -3.5")) None None)
                [command_step "m"
                   [value (str "10"); value (str "20"); value (str "-3.5")]]);
     logged := [] |}.
Proof.
  apply (single_command_parsed
           (glyph_of None (Some (str "m10,20 -3.5")) None None) "m"
           [ {| lead := []; token := str "10"; trail := str "," |};
             {| lead := []; token := str "20"; trail := str " " |};
             {| lead := []; token := str "-3.5"; trail := [] |} ]).
  - reflexivity.
  - discriminate.
  - cbn [separated]. unfold valid_item, numeric_token, separator_opt, all.
    cbn [lead token trail].
    repeat split; try reflexivity.
    + exists [], (str "10"), []. repeat split; try discriminate; auto.
    + right. exists ","%char. split; reflexivity.
    + exists [], (str "20"), []. repeat split; try discriminate; auto.
    + right. exists " "%char. split; reflexivity.
    + exists (str "-"), (str "3"), (str ".5").
      repeat split; try discriminate; auto.
      right. exists (str "5"). split; reflexivity.
    + left. reflexivity.
  - repeat constructor.
  - reflexivity.
  - discriminate.
Defined.

(** The claim as stated fails on a token beyond the range of float64:
    "L" followed by 1 and 309 zeros is a command letter and one valid
    decimal token, and the call ends in [log.Fatalf] of [atof] with no
    step appended. *)
Lemma single_command_out_of_range :
  let d := "L"%char :: overflowing in
  let g := glyph_of None (Some d) None None in
  isCmdLetter "L" = true /\
  separated [ {| lead := []; token := overflowing; trail := [] |} ] [] /\
  d = "L"%char ::
      run_text [ {| lead := []; token := overflowing; trail := [] |} ] /\
  ParsePath (Some g) =
  {| ending := Fatalf (unable_to_parse_as_float64 overflowing);
     glyph := Some g; logged := [] |}.
Proof.
  cbv zeta. split; [reflexivity|]. split; [|split].
  - cbn [separated]. unfold valid_item, numeric_token, separator_opt, all.
    cbn [lead token trail]. repeat split; try reflexivity.
    + exists [], overflowing, []. repeat split; try discriminate; auto.
    + left. reflexivity.
  - vm_compute. reflexivity.
  - vm_compute. reflexivity.
Qed.

(** ** C2: text that is no command *)

(** C2.  When the text left after some iterations of the loop is not
    empty and matches neither closeRE nor cmdRE, the call ends in
    [log.Fatalf] with "Unknown path command" and that text, unchanged;
    the glyph holds the steps appended before and none for the
    unmatched text, and nothing is logged beyond the override notice. *)
Theorem unknown_command_is_fatal (g : Glyph) (d : gostring) (k : nat)
    (st : scanner) :
  effective_path g = Some d -> reaches_loop g ->
  advance k (start g d) = Some st ->
  rest st <> [] ->
  FindStringSubmatch closeRE (rest st) = [] ->
  FindStringSubmatch cmdRE (rest st) = [] ->
  ParsePath (Some g) =
  {| ending := Fatalf (Unknown_path_command (rest st));
     glyph := Some (set_PathSteps g (steps st));
     logged := notice g |}.
Proof.
  intros Hd Hg Hk Hne Hc Hm.
  rewrite (ParsePath_parse g d Hd Hg).
  apply parse_fatal.
  rewrite (scan_advance k (length d) (start g d) st Hk (le_n _)).
  pose proof (advance_length _ _ _ Hk) as Hl. cbn [start rest] in Hl.
  destruct (length d) as [|n] eqn:El.
  - destruct (rest st); [congruence|cbn in Hl; lia].
  - apply scan_unknown; assumption.
Qed.

(** The inputs "Q" and "X10,10" of the claim, and a text whose first
    command is parsed before the unknown one is met. *)
Lemma unknown_command_is_fatal_witness :
  ParsePath (Some (glyph_of None (Some (str "Q")) None None)) =
  {| ending := Fatalf (Unknown_path_command (str "Q"));
     glyph := Some (glyph_of None (Some (str "Q")) None None);
     logged := [] |} /\
  ParsePath (Some (glyph_of None (Some (str "X10,10")) None None)) =
  {| ending := Fatalf (Unknown_path_command (str "X10,10"));
     glyph := Some (glyph_of None (Some (str "X10,10")) None None);
     logged := [] |} /\
  ending (ParsePath (Some (glyph_of None (Some (str "M1,2X3")) None None))) =
  Fatalf (Unknown_path_command (str "X3")).
Proof.
  split; [|split].
  - apply (unknown_command_is_fatal
             (glyph_of None (Some (str "Q")) None None) (str "Q") 0
             (start (glyph_of None (Some (str "Q")) None None) (str "Q")));
      try reflexivity; discriminate.
  - apply (unknown_command_is_fatal
             (glyph_of None (Some (str "X10,10")) None None) (str "X10,10") 0
             (start (glyph_of None (Some (str "X10,10")) None None)
                    (str "X10,10")));
      try reflexivity; discriminate.
  - rewrite (unknown_command_is_fatal
               (glyph_of None (Some (str "M1,2X3")) None None)
               (str "M1,2X3") 1
               {| rest := str "X3";
                  steps := [command_step "M"
                              [value (str "1"); value (str "2")]];
                  numZs := 0 |});
      try reflexivity; discriminate.
Defined.

(** ** C3: the override *)

(** C3, as corrected.  For a glyph whose primary path [D] is present
    and whose [Unicode] is present: when [DOrig] is non-empty the call
    ends, and leaves the steps, as a call on the glyph whose primary
    path is that override and that has no override, and it logs the
    substitution notice before anything else.  For a glyph whose [D] is
    present and whose [DOrig] is the empty string, the call is the call
    on the glyph without override, and no substitution notice is
    logged. *)
Theorem override_precedence (g : Glyph) (d : gostring) :
  D g = Some d ->
  (forall o u,
     DOrig g = Some o -> o <> [] -> Unicode g = Some u ->
     let e := ParsePath (Some g) in
     let e' := ParsePath (Some (with_paths g (Some o) None)) in
     ending e = ending e' /\ steps_of e = steps_of e' /\
     logged e = Warning_using_DOrig u :: logged e') /\
  (DOrig g = Some [] ->
   let e := ParsePath (Some g) in
   let e' := ParsePath (Some (with_paths g (Some d) None)) in
   ending e = ending e' /\ steps_of e = steps_of e' /\
   logged e = logged e' /\
   forallb (fun l => negb (is_notice l)) (logged e) = true).
Proof.
  intro Hd. split.
  - intros o u Ho Hne Hu. cbv zeta.
    destruct o as [|c o]; [congruence|].
    rewrite (ParsePath_override g d c o u Hd Ho Hu).
    rewrite (ParsePath_no_override
               (with_paths g (@Some gostring (c :: o)) None) (c :: o)
               eq_refl (or_introl eq_refl)).
    destruct (parse_paths g (@Some gostring (c :: o)) None (c :: o) [])
      as (E1 & E2 & E3).
    destruct (parse_log g (c :: o) [Warning_using_DOrig u]) as (L1 & L2 & L3).
    rewrite E1, E2, E3, L1, L2, L3. repeat split; reflexivity.
  - intros Ho. cbv zeta.
    rewrite (ParsePath_no_override g d Hd (or_intror Ho)).
    rewrite (ParsePath_no_override (with_paths g (Some d) None) d
               eq_refl (or_introl eq_refl)).
    destruct (parse_paths g (Some d) None d []) as (E1 & E2 & E3).
    rewrite E1, E2, E3. repeat split; try reflexivity. apply parse_no_notice.
Qed.

Lemma override_precedence_witness :
  (let g := glyph_of (Some (str "A")) (Some (str "M1,2")) (Some (str "L3 4z"))
                     None in
   let e := ParsePath (Some g) in
   let e' := ParsePath (Some (with_paths g (Some (str "L3 4z")) None)) in
   ending e = ending e' /\ steps_of e = steps_of e' /\
   logged e = Warning_using_DOrig (str "A") :: logged e') /\
  (let g := glyph_of None (Some (str "M1,2")) (Some []) None in
   let e := ParsePath (Some g) in
   let e' := ParsePath (Some (with_paths g (Some (str "M1,2")) None)) in
   ending e = ending e' /\ steps_of e = steps_of e' /\
   logged e = logged e' /\
   forallb (fun l => negb (is_notice l)) (logged e) = true).
Proof.
  split.
  - apply (proj1 (override_precedence
             (glyph_of (Some (str "A")) (Some (str "M1,2"))
                       (Some (str "L3 4z")) None)
             (str "M1,2") eq_refl) (str "L3 4z") (str "A")).
    + reflexivity.
    + discriminate.
    + reflexivity.
  - apply (proj2 (override_precedence
             (glyph_of None (Some (str "M1,2")) (Some []) None)
             (str "M1,2") eq_refl)).
    reflexivity.
Defined.

(** The claim as stated fails on a glyph whose override is non-empty
    and whose primary path is absent: the call returns at its first
    test, the override is not parsed and no notice is logged. *)
Lemma override_without_primary_skipped :
  let g := glyph_of (Some (str "A")) None (Some (str "M1,2")) None in
  DOrig g = Some (str "M1,2") /\ str "M1,2" <> [] /\
  ParsePath (Some g) =
  {| ending := Returned tt; glyph := Some g; logged := [] |}.
Proof.
  cbv zeta. split; [reflexivity|]. split; [discriminate|reflexivity].
Qed.

(** ** C4 and C8: the diagnostics and the [Unicode] attribute *)

(** With [Unicode] present, the check after a loop that consumed its
    text logs its warning once exactly when more than one close command
    was seen and [GerberLP] is absent or of another length; with or
    without warning the call returns and the steps are those of the
    loop. *)
Lemma polarity_warning_with_unicode (g : Glyph) (d u : gostring)
    (st : scanner) :
  Unicode g = Some u -> effective_path g = Some d ->
  scan (length d) (start g d) = (st, Returned tt) ->
  ParsePath (Some g) =
  {| ending := Returned tt;
     glyph := Some (set_PathSteps g (steps st));
     logged := notice g ++ polarity_warning u (GerberLP g) (numZs st) |}.
Proof.
  intros Hu Hd Hs.
  assert (Hg : reaches_loop g) by (intros _; rewrite Hu; discriminate).
  rewrite (ParsePath_parse g d Hd Hg), (parse_returned g d _ st Hs).
  apply (validate_unicode (set_PathSteps g (steps st)) u). exact Hu.
Qed.

(** C4 fails on the code.  The glyph has no [Unicode], its path "zz"
    has two close commands and [GerberLP] is absent: the check after
    the loop evaluates [*g.Unicode] for the warning, and the call ends
    in a nil dereference with the two steps appended and no warning
    logged. *)
Theorem polarity_warning_nil_unicode :
  ParsePath (Some (glyph_of None (Some (str "zz")) None None)) =
  {| ending := NilDereference;
     glyph := Some (set_PathSteps (glyph_of None (Some (str "zz")) None None)
                      [command_step "z" []; command_step "z" []]);
     logged := [] |}.
Proof. vm_compute. reflexivity. Qed.

(** C8 fails on the code.  The glyph has no [Unicode] and a non-empty
    [DOrig]: the override notice evaluates [*g.Unicode], and the call
    ends in a nil dereference before anything is parsed or logged. *)
Theorem override_notice_nil_unicode :
  ParsePath (Some (glyph_of None (Some (str "M1,2")) (Some (str "z")) None)) =
  {| ending := NilDereference;
     glyph := Some (glyph_of None (Some (str "M1,2")) (Some (str "z")) None);
     logged := [] |}.
Proof. vm_compute. reflexivity. Qed.

(** With [Unicode] present both diagnostics carry it. *)
Lemma diagnostics_carry_unicode :
  ParsePath (Some (glyph_of (Some (str "A")) (Some (str "M1,2"))
                            (Some (str "zZ")) (Some (str "+")))) =
  {| ending := Returned tt;
     glyph := Some (set_PathSteps
                (glyph_of (Some (str "A")) (Some (str "M1,2"))
                          (Some (str "zZ")) (Some (str "+")))
                [command_step "z" []; command_step "Z" []]);
     logged := [Warning_using_DOrig (str "A");
                Warning_numZs (str "A") 2 (str "+")] |}.
Proof. vm_compute. reflexivity. Qed.

(** ** C5: the grammar of the numeric token scanner *)

(** C5, as corrected.  numRE matches a text exactly when the text
    starts with optional white space and a numeric token: an optional
    leading minus, one or more decimal digits, an optional dot followed
    by zero or more digits.  The group holds the longest such token and
    the match ends after at most one separator byte behind it, which is
    a comma, a white-space character or a plus sign.  [parseParams]
    returns exactly on the texts that are a sequence of such items whose
    tokens all convert, with the values of the tokens in order. *)
Theorem numeric_scanner_grammar (d m0 m1 : gostring) (vs : list float64) :
  (FindStringSubmatch numRE d = [m0; m1] <->
   exists ws sep r,
     d = m0 ++ r /\ m0 = ws ++ m1 ++ sep /\
     all isSpace ws /\ numeric_token m1 /\ separator_opt sep /\
     ends_item m1 sep r) /\
  (parseParams d = Returned vs <->
   exists items,
     d = run_text items /\ separated items [] /\
     Forall converts (map token items) /\
     vs = map value (map token items)).
Proof.
  split; [|apply parseParams_returned].
  rewrite numRE_match. split.
  - destruct (scanItem d) as [[[s1 s2] s3]|] eqn:E; [|discriminate].
    intros [= <- <-].
    apply scanItem_sound in E
      as (ws & tok & sep & -> & -> & -> & Hws & Htok & Hsp & Hend).
    exists ws, sep, s3. rewrite token_at_app.
    assert (E : ws ++ tok ++ sep ++ s3 = (ws ++ tok ++ sep) ++ s3)
      by (rewrite <- !app_assoc; reflexivity).
    rewrite E, firstn_suffix. repeat split; assumption.
  - intros (ws & sep & r & -> & -> & Hws & Htok & Hsp & Hend).
    assert (E : (ws ++ m1 ++ sep) ++ r = ws ++ m1 ++ sep ++ r)
      by (rewrite <- !app_assoc; reflexivity).
    rewrite E, (scanItem_complete ws m1 sep r Hws Htok Hsp Hend).
    rewrite token_at_app, <- E, firstn_suffix. reflexivity.
Qed.

(** The match of numRE is empty or has the text and its one group. *)
Lemma numRE_shape (d : gostring) :
  FindStringSubmatch numRE d = [] \/
  exists m0 m1, FindStringSubmatch numRE d = [m0; m1].
Proof.
  rewrite numRE_match. destruct (scanItem d) as [[[s1 s2] s3]|]; eauto.
Qed.

(** No leading dot, no sign but the minus, and an exponent is left
    unread. *)
Lemma numRE_rejects :
  FindStringSubmatch numRE (str ".5") = [] /\
  FindStringSubmatch numRE (str "+5") = [] /\
  FindStringSubmatch numRE (str "--5") = [] /\
  FindStringSubmatch numRE (str "1e5") = [str "1"; str "1"] /\
  parseParams (str "1e5") = Fatalf (parseParams_unable_to_parse (str "e5")).
Proof. repeat split; vm_compute; reflexivity. Qed.

(** The claim as stated fails on a plus sign and on leading white
    space: numRE takes the plus sign after "1" as the separator, and the
    blank before "1" as part of the match, and neither text is a token
    followed by at most one comma or white-space character. *)
Lemma plus_and_leading_blank_accepted :
  FindStringSubmatch numRE (str "1+2") = [str "1+"; str "1"] /\
  ~ spec_item (str "1+") /\
  FindStringSubmatch numRE (str " 1") = [str " 1"; str "1"] /\
  ~ spec_item (str " 1") /\
  parseParams (str "1+2") = Returned [value (str "1"); value (str "2")].
Proof.
  split; [reflexivity|]. split; [|split; [reflexivity|split]].
  - intros (tok & sep & E & Htok & [->|(c & -> & Hc)]).
    + rewrite app_nil_r in E. subst tok.
      apply numeric_token_bytes in Htok. discriminate Htok.
    + change (str "1+") with (str "1" ++ ["+"%char]) in E.
      apply app_inj_tail in E as [_ <-].
      destruct Hc as [Hc|Hc]; discriminate Hc.
  - intros (tok & sep & E & Htok & [->|(c & -> & Hc)]).
    + rewrite app_nil_r in E. subst tok.
      apply numeric_token_bytes in Htok. discriminate Htok.
    + change (str " 1") with (str " " ++ ["1"%char]) in E.
      apply app_inj_tail in E as [_ <-].
      destruct Hc as [Hc|Hc]; discriminate Hc.
  - vm_compute. reflexivity.
Qed.

(** ** C6: the numeric run handed to [parseParams] *)

(** C6, as corrected.  After a command letter of one byte, the text
    cmdRE matched behind the letter is a well-separated run of numeric
    tokens; on it [parseParams] never reaches its own [log.Fatalf], and
    [atof] fails only on a token out of the range of float64: either
    every token converts and the values of the whole run are returned,
    or the call stops at a token that [ParseFloat] rejects with
    [ErrRange]. *)
Theorem numeric_run_scanned (c : ascii) (d1 : gostring) (m : list gostring) :
  isCmdLetter c = true ->
  FindStringSubmatch cmdRE (c :: d1) = m -> 3 <= length m ->
  exists items,
    items <> [] /\ separated items [] /\
    skipn 1 (idx m 0) = run_text items /\
    ((Forall converts (map token items) /\
      parseParams (skipn 1 (idx m 0)) = Returned (map value (map token items)))
     \/
     (exists tok,
        In tok (map token items) /\ snd (ParseFloat tok) = Some ErrRange /\
        parseParams (skipn 1 (idx m 0))
        = Fatalf (unable_to_parse_as_float64 tok))).
Proof.
  intros Hc Hm Hlen.
  destruct (cmdRE_run c d1 m Hc Hm Hlen) as (items & r & Hne & Hd & Hsep & ->).
  exists items. cbn [idx nth skipn].
  pose proof (separated_nil_tail _ _ Hsep) as Hsep0.
  repeat split; try assumption.
  unfold parseParams.
  rewrite (parseParams_loop_items items _ [] Hsep0 (le_n _)).
  destruct (atofs_tokens (map token items) [] (separated_tokens _ _ Hsep0))
    as [[Hall ->]|(tok & Hin & He & ->)].
  - left. split; [exact Hall|reflexivity].
  - right. exists tok. repeat split; assumption.
Qed.

Lemma numeric_run_scanned_witness :
  exists items,
    items <> [] /\ separated items [] /\
    str "10,20 -3.5" = run_text items /\
    ((Forall converts (map token items) /\
      parseParams (str "10,20 -3.5") = Returned (map value (map token items)))
     \/
     (exists tok,
        In tok (map token items) /\ snd (ParseFloat tok) = Some ErrRange /\
        parseParams (str "10,20 -3.5")
        = Fatalf (unable_to_parse_as_float64 tok))).
Proof.
  apply (numeric_run_scanned "m" (str "10,20 -3.5z")
           [str "m10,20 -3.5"; str "m"; str "-3.5"]).
  - reflexivity.
  - reflexivity.
  - cbn. lia.
Defined.

(** Both fatal branches are reached from a match of cmdRE.  A token out
    of range makes [atof] fail; and after the two-byte letter U+017F,
    which the case-insensitive class of cmdRE accepts, the slice
    [m[0][1:]] starts inside the letter and [parseParams] fails on
    it. *)
Lemma scanner_fatal_branches_reached :
  (let d := "M"%char :: overflowing in
   FindStringSubmatch cmdRE d = [d; str "M"; overflowing] /\
   parseParams (skipn 1 d) = Fatalf (unable_to_parse_as_float64 overflowing))
  /\
  (let d := long_s ++ str "1" in
   FindStringSubmatch cmdRE d = [d; long_s; str "1"] /\
   parseParams (skipn 1 d) = Fatalf (parseParams_unable_to_parse (skipn 1 d))).
Proof.
  cbv zeta. repeat split; vm_compute; reflexivity.
Qed.

(** ** C7: close commands only *)

(** What holds of a text made only of close commands, each the letter
    z or Z and the white space after it: the loop consumes the whole
    text without fatal error and appends one step per close command, in
    order, with the letter as written as command and no parameters.
    With at most one close command the call returns and logs no
    warning; with more it returns whenever [Unicode] is present. *)
Lemma close_commands_parsed (g : Glyph) (cs : list closing) :
  Forall valid_closing cs ->
  effective_path g = Some (closing_text cs) -> reaches_loop g ->
  glyph (ParsePath (Some g)) =
    Some (set_PathSteps g (PathSteps g ++ map close_step cs)) /\
  (forall f, ending (ParsePath (Some g)) <> Fatalf f) /\
  ending (ParsePath (Some g)) <> OutOfFuel /\
  (length cs <= 1 ->
   ending (ParsePath (Some g)) = Returned tt /\
   logged (ParsePath (Some g)) = notice g) /\
  (Unicode g <> None -> ending (ParsePath (Some g)) = Returned tt).
Proof.
  intros Hv Hd Hg.
  rewrite (ParsePath_parse g _ Hd Hg).
  rewrite (parse_returned g (closing_text cs) (notice g) _
             (scan_closings cs (length (closing_text cs))
                (start g (closing_text cs)) Hv eq_refl (le_n _))).
  cbn [steps numZs start Z.add].
  set (g' := set_PathSteps g (PathSteps g ++ map close_step cs)).
  split; [apply validate_glyph|].
  pose proof (validate_ending g' (Z.of_nat (length cs)) (notice g)) as He.
  split; [|split; [|split]].
  - intros f Hf. destruct He as [He|[He _]]; congruence.
  - intro Hf. destruct He as [He|[He _]]; congruence.
  - intro Hl. rewrite (validate_quiet g' _ (notice g)) by lia.
    split; reflexivity.
  - intro Hu. destruct He as [He|(_ & Hn & _)]; [exact He|].
    exfalso. apply Hu. exact Hn.
Qed.

Lemma close_commands_parsed_witness :
  glyph (ParsePath (Some (glyph_of None (Some (str "z  Z z ")) None
                                   (Some (str "+-+"))))) =
    Some (set_PathSteps
            (glyph_of None (Some (str "z  Z z ")) None (Some (str "+-+")))
            [command_step "z" []; command_step "Z" []; command_step "z" []]) /\
  ParsePath (Some (glyph_of None (Some (str "Z ")) None None)) =
  {| ending := Returned tt;
     glyph := Some (set_PathSteps (glyph_of None (Some (str "Z ")) None None)
                      [command_step "Z" []]);
     logged := [] |}.
Proof.
  split.
  - apply (close_commands_parsed
             (glyph_of None (Some (str "z  Z z ")) None (Some (str "+-+")))
             [ {| letter := "z"; blanks := str "  " |};
               {| letter := "Z"; blanks := str " " |};
               {| letter := "z"; blanks := str " " |} ]).
    + repeat constructor.
    + reflexivity.
    + discriminate.
  - pose proof (close_commands_parsed
                  (glyph_of None (Some (str "Z ")) None None)
                  [ {| letter := "Z"; blanks := str " " |} ]
                  ltac:(repeat constructor) eq_refl ltac:(discriminate))
      as (Hg & _ & _ & Hq & _).
    destruct (Hq (le_n 1)) as [He Hl].
    destruct (ParsePath (Some (glyph_of None (Some (str "Z ")) None None)))
      as [e gl lg].
    cbn [ending glyph logged] in *. subst. reflexivity.
Defined.

(** C7 fails on the code.  On a glyph without [Unicode], a text of two
    or more close commands is scanned to its end and one step is
    appended for each, but when [GerberLP] is absent or of another
    length than their number the check after the loop evaluates
    [*g.Unicode] for its warning: the call ends in a nil dereference
    instead of returning, and nothing is logged. *)
Theorem close_commands_nil_unicode (g : Glyph) (cs : list closing) :
  Forall valid_closing cs ->
  effective_path g = Some (closing_text cs) -> reaches_loop g ->
  Unicode g = None -> 1 < length cs ->
  (forall lp, GerberLP g = Some lp -> length lp <> length cs) ->
  ParsePath (Some g) =
  {| ending := NilDereference;
     glyph := Some (set_PathSteps g (PathSteps g ++ map close_step cs));
     logged := [] |}.
Proof.
  intros Hv Hd Hg Hu Hn Hlp.
  rewrite (ParsePath_parse g _ Hd Hg).
  rewrite (parse_returned g (closing_text cs) (notice g) _
             (scan_closings cs (length (closing_text cs))
                (start g (closing_text cs)) Hv eq_refl (le_n _))).
  cbn [steps numZs start Z.add].
  rewrite validate_nil_unicode by exact Hu.
  cbn [GerberLP set_PathSteps]. unfold notice. rewrite Hu.
  replace (polarity_differs (GerberLP g) (Z.of_nat (length cs))) with true;
    [reflexivity|].
  unfold polarity_differs.
  destruct (Z.ltb_spec 1 (Z.of_nat (length cs))) as [_|H]; [|lia].
  destruct (GerberLP g) as [lp|]; [|reflexivity].
  specialize (Hlp lp eq_refl). cbn [andb].
  destruct (Z.eqb_spec (Z.of_nat (length lp)) (Z.of_nat (length cs)));
    [lia|reflexivity].
Qed.

Lemma close_commands_nil_unicode_witness :
  ParsePath (Some (glyph_of None (Some (str "z Z")) None (Some (str "+")))) =
  {| ending := NilDereference;
     glyph := Some (set_PathSteps
                      (glyph_of None (Some (str "z Z")) None (Some (str "+")))
                      [command_step "z" []; command_step "Z" []]);
     logged := [] |}.
Proof.
  apply (close_commands_nil_unicode
           (glyph_of None (Some (str "z Z")) None (Some (str "+")))
           [ {| letter := "z"; blanks := str " " |};
             {| letter := "Z"; blanks := [] |} ]).
  - repeat constructor.
  - reflexivity.
  - discriminate.
  - reflexivity.
  - cbn. lia.
  - intros lp [= <-]. discriminate.
Defined.

(** ** C9: termination *)

(** C9.  Every successful match of closeRE, cmdRE and numRE consumes at
    least one byte, so every iteration of either loop that goes on
    leaves a strictly shorter text; with fuel for as many iterations as
    the text has bytes neither loop runs out of it, more fuel changes
    nothing, and [ParsePath] never ends for lack of fuel. *)
Theorem loops_terminate (gp : option Glyph) (st : scanner) (d : gostring)
    (acc : list float64) (n m : nat) :
  length (rest st) <= n -> length d <= m ->
  (forall ms, FindStringSubmatch closeRE d = ms -> length ms = 2 ->
              idx ms 0 <> [] /\
              length (skipn (length (idx ms 0)) d) < length d) /\
  (forall ms, FindStringSubmatch cmdRE d = ms -> 3 <= length ms ->
              idx ms 0 <> [] /\
              length (skipn (length (idx ms 0)) d) < length d) /\
  (forall ms, FindStringSubmatch numRE d = ms -> length ms = 2 ->
              idx ms 0 <> [] /\
              length (skipn (length (idx ms 0)) d) < length d) /\
  (forall st', iteration st = Returned st' ->
               length (rest st') < length (rest st)) /\
  snd (scan n st) <> OutOfFuel /\
  scan n st = scan (length (rest st)) st /\
  parseParams_loop m d acc <> OutOfFuel /\
  parseParams_loop m d acc = parseParams_loop (length d) d acc /\
  ending (ParsePath gp) <> OutOfFuel.
Proof.
  intros Hn Hm.
  destruct (scan_fuel n (length (rest st)) st Hn (le_n _)) as (Hs1 & Hs2 & _).
  destruct (parseParams_loop_fuel m (length d) d acc Hm (le_n _))
    as (Hp1 & Hp2).
  split; [exact (closeRE_consumes d)|].
  split; [exact (cmdRE_consumes d)|].
  split; [exact (numRE_consumes d)|].
  split.
  - intros st' Hi.
    destruct (iteration_cases st) as [(st1 & step & Hi1 & _ & Hl)|(f & Hf)];
      congruence.
  - repeat split; try assumption. apply ParsePath_no_OutOfFuel.
Qed.

Lemma loops_terminate_witness :
  snd (scan 7 {| rest := str "M1,2 z"; steps := []; numZs := 0 |})
  <> OutOfFuel /\
  parseParams_loop 9 (str "1,2 3") [] = parseParams_loop 5 (str "1,2 3") [].
Proof.
  pose proof (loops_terminate None
                {| rest := str "M1,2 z"; steps := []; numZs := 0 |}
                (str "1,2 3") [] 7 9) as H.
  cbn [rest length str list_ascii_of_string] in H.
  destruct (H ltac:(lia) ltac:(lia))
    as (_ & _ & _ & _ & H1 & _ & _ & H2 & _).
  split; [exact H1|exact H2].
Defined.

(** ** C10: what the call changes *)

(** C10.  Whatever way the call ends, the glyph it leaves has the
    [HorizAdvX], [Unicode], [D], [DOrig] and [GerberLP] it had, and its
    [PathSteps] are the former ones followed by the steps the call
    appended; those are the same whatever steps the glyph had
    before. *)
Theorem ParsePath_frame (g : Glyph) :
  exists g' new,
    glyph (ParsePath (Some g)) = Some g' /\
    HorizAdvX g' = HorizAdvX g /\ Unicode g' = Unicode g /\
    D g' = D g /\ DOrig g' = DOrig g /\ GerberLP g' = GerberLP g /\
    PathSteps g' = PathSteps g ++ new /\
    forall old,
      steps_of (ParsePath (Some (set_PathSteps g old))) = old ++ new.
Proof.
  assert (Hparse : forall text log,
            exists new,
              glyph (parse g text log)
              = Some (set_PathSteps g (PathSteps g ++ new)) /\
              forall old,
                steps_of (parse (set_PathSteps g old) text log) = old ++ new).
  { intros text log.
    exists (steps (fst (scan (length text)
                          {| rest := text; steps := []; numZs := 0 |}))).
    split.
    - rewrite parse_glyph, start_with_steps, scan_with_steps. reflexivity.
    - intro old. unfold steps_of.
      rewrite parse_glyph, start_with_steps, scan_with_steps. reflexivity. }
  assert (Hsame : glyph (ParsePath (Some g)) = Some g ->
            (forall old,
               steps_of (ParsePath (Some (set_PathSteps g old))) = old ++ []) ->
            exists g' new,
              glyph (ParsePath (Some g)) = Some g' /\
              HorizAdvX g' = HorizAdvX g /\ Unicode g' = Unicode g /\
              D g' = D g /\ DOrig g' = DOrig g /\ GerberLP g' = GerberLP g /\
              PathSteps g' = PathSteps g ++ new /\
              forall old,
                steps_of (ParsePath (Some (set_PathSteps g old))) = old ++ new).
  { intros He Hold. exists g, [].
    rewrite app_nil_r. repeat split; assumption. }
  assert (Hfrom : forall text log,
            ParsePath (Some g) = parse g text log ->
            (forall old, ParsePath (Some (set_PathSteps g old))
                         = parse (set_PathSteps g old) text log) ->
            exists g' new,
              glyph (ParsePath (Some g)) = Some g' /\
              HorizAdvX g' = HorizAdvX g /\ Unicode g' = Unicode g /\
              D g' = D g /\ DOrig g' = DOrig g /\ GerberLP g' = GerberLP g /\
              PathSteps g' = PathSteps g ++ new /\
              forall old,
                steps_of (ParsePath (Some (set_PathSteps g old))) = old ++ new).
  { intros text log E Eold.
    destruct (Hparse text log) as (new & Hg & Hold).
    exists (set_PathSteps g (PathSteps g ++ new)), new.
    rewrite E. repeat split; try exact Hg.
    intro old. rewrite Eold. apply Hold. }
  destruct (D g) as [d0|] eqn:Hd.
  2:{ apply Hsame; [unfold ParsePath; rewrite Hd; reflexivity|].
      intro old. unfold ParsePath, steps_of. cbn [D set_PathSteps].
      rewrite Hd, app_nil_r. reflexivity. }
  destruct (DOrig g) as [[|c o]|] eqn:Ho.
  - apply (Hfrom d0 []).
    + unfold ParsePath. rewrite Hd, Ho. reflexivity.
    + intro old. unfold ParsePath. cbn [D DOrig set_PathSteps].
      rewrite Hd, Ho. reflexivity.
  - destruct (Unicode g) as [u|] eqn:Hu.
    + apply (Hfrom (c :: o) [Warning_using_DOrig u]).
      * unfold ParsePath. rewrite Hd, Ho, Hu. reflexivity.
      * intro old. unfold ParsePath. cbn [D DOrig Unicode set_PathSteps].
        rewrite Hd, Ho, Hu. reflexivity.
    + apply Hsame; [unfold ParsePath; rewrite Hd, Ho, Hu; reflexivity|].
      intro old. unfold ParsePath, steps_of.
      cbn [D DOrig Unicode set_PathSteps].
      rewrite Hd, Ho, Hu, app_nil_r. reflexivity.
  - apply (Hfrom d0 []).
    + unfold ParsePath. rewrite Hd, Ho. reflexivity.
    + intro old. unfold ParsePath. cbn [D DOrig set_PathSteps].
      rewrite Hd, Ho. reflexivity.
Qed.
(** * Further properties *)

(** ** Whole paths *)

(** X1.  A path made of commands, each a close command with the white
    space after it or one of the eighteen letters with a well-separated
    run of tokens that convert, is parsed to the end: one step is
    appended for each command, in order, and the call does not end in
    [log.Fatalf].  With [Unicode] present it returns, and the lines
    logged are the override notice and the warning of the check after
    the loop, decided on the number of close commands; with at most one
    close command it returns and logs no warning. *)
Theorem whole_path_parsed (g : Glyph) (segs : list segment) :
  Forall valid_segment segs -> Forall converts (path_tokens segs) ->
  effective_path g = Some (path_text segs) -> reaches_loop g ->
  glyph (ParsePath (Some g)) =
    Some (set_PathSteps g (PathSteps g ++ map segment_step segs)) /\
  (forall f, ending (ParsePath (Some g)) <> Fatalf f) /\
  (forall u, Unicode g = Some u ->
     ending (ParsePath (Some g)) = Returned tt /\
     logged (ParsePath (Some g)) =
       notice g ++ polarity_warning u (GerberLP g) (closings segs)) /\
  ((closings segs <= 1)%Z ->
   ending (ParsePath (Some g)) = Returned tt /\
   logged (ParsePath (Some g)) = notice g).
Proof.
  intros Hv Hc Hd Hg.
  rewrite (ParsePath_parse g _ Hd Hg), (parse_segments g segs _ Hv Hc).
  set (g' := set_PathSteps g (PathSteps g ++ map segment_step segs)).
  split; [apply validate_glyph|].
  split; [intro f; apply validate_not_fatal|].
  split.
  - intros u Hu. rewrite (validate_unicode g' u) by exact Hu.
    split; reflexivity.
  - intro Hz. rewrite validate_quiet by exact Hz. split; reflexivity.
Qed.

Lemma whole_path_parsed_witness :
  ParsePath (Some (glyph_of (Some (str "A")) (Some (str "M1,2 L3 -4.5zZ"))
                            None (Some (str "+")))) =
  {| ending := Returned tt;
     glyph :=
       Some (set_PathSteps
               (glyph_of (Some (str "A")) (Some (str "M1,2 L3 -4.5zZ"))
                         None (Some (str "+")))
               [command_step "M" [value (str "1"); value (str "2")];
                command_step "L" [value (str "3"); value (str "-4.5")];
                command_step "z" []; command_step "Z" []]);
     logged := [Warning_numZs (str "A") 2 (str "+")] |}.
Proof.
  pose proof (whole_path_parsed
                (glyph_of (Some (str "A")) (Some (str "M1,2 L3 -4.5zZ"))
                          None (Some (str "+")))
                [Drawing "M"
                   [ {| lead := []; token := str "1"; trail := str "," |};
                     {| lead := []; token := str "2"; trail := str " " |} ];
                 Drawing "L"
                   [ {| lead := []; token := str "3"; trail := str " " |};
                     {| lead := []; token := str "-4.5"; trail := [] |} ];
                 Closing {| letter := "z"; blanks := [] |};
                 Closing {| letter := "Z"; blanks := [] |}]) as H.
  destruct H as (Hg & _ & Hu & _).
  - apply Forall_cons; [|apply Forall_cons]; [| |repeat constructor].
    + split; [reflexivity|]. split; [discriminate|].
      cbn [separated]. unfold valid_item, numeric_token, separator_opt, all.
      cbn [lead token trail]. repeat split; try reflexivity.
      * exists [], (str "1"), []. repeat split; try discriminate; auto.
      * right. exists ","%char. split; reflexivity.
      * exists [], (str "2"), []. repeat split; try discriminate; auto.
      * right. exists " "%char. split; reflexivity.
    + split; [reflexivity|]. split; [discriminate|].
      cbn [separated]. unfold valid_item, numeric_token, separator_opt, all.
      cbn [lead token trail]. repeat split; try reflexivity.
      * exists [], (str "3"), []. repeat split; try discriminate; auto.
      * right. exists " "%char. split; reflexivity.
      * exists (str "-"), (str "4"), (str ".5").
        repeat split; try discriminate; auto.
        right. exists (str "5"). split; reflexivity.
      * left. reflexivity.
  - repeat constructor.
  - reflexivity.
  - discriminate.
  - destruct (Hu (str "A") eq_refl) as [He Hl].
    destruct (ParsePath _) as [e gl lg].
    cbn [ending glyph logged] in *. subst. reflexivity.
Defined.

(** X2.  The call returns only on such a path: when it returns, the
    text it parsed is a sequence of commands whose tokens all convert,
    the steps appended are the steps of these commands, in order, and
    the lines logged are the override notice and, with [Unicode]
    present, the warning decided on the number of close commands. *)
Theorem returned_path_well_formed (g : Glyph) (d : gostring) :
  effective_path g = Some d -> ending (ParsePath (Some g)) = Returned tt ->
  exists segs,
    d = path_text segs /\ Forall valid_segment segs /\
    Forall converts (path_tokens segs) /\
    steps_of (ParsePath (Some g)) = PathSteps g ++ map segment_step segs /\
    logged (ParsePath (Some g)) =
      notice g ++
      match Unicode g with
      | Some u => polarity_warning u (GerberLP g) (closings segs)
      | None => []
      end.
Proof.
  intros Hd He.
  destruct (ParsePath_cases g d Hd) as [[Hg Hp]|(_ & _ & Hp)];
    rewrite Hp in *; [|discriminate].
  destruct (parse_not_fatal g d (notice g)) as (segs & -> & Hv & Hc & Hs).
  { intro f. rewrite He. discriminate. }
  exists segs. repeat split; try assumption.
  - rewrite Hs, steps_of_validate. reflexivity.
  - rewrite Hs. destruct (Unicode g) as [u|] eqn:Hu.
    + rewrite (validate_unicode _ u) by exact Hu. reflexivity.
    + rewrite validate_nil_unicode by exact Hu.
      cbn [logged]. rewrite app_nil_r. reflexivity.
Qed.

Lemma returned_path_well_formed_witness :
  exists segs,
    str "M1,2z" = path_text segs /\ Forall valid_segment segs /\
    Forall converts (path_tokens segs) /\
    steps_of (ParsePath (Some (glyph_of None (Some (str "M1,2z")) None None)))
    = [] ++ map segment_step segs /\
    logged (ParsePath (Some (glyph_of None (Some (str "M1,2z")) None None)))
    = [] ++ [].
Proof.
  apply (returned_path_well_formed
           (glyph_of None (Some (str "M1,2z")) None None) (str "M1,2z")).
  - reflexivity.
  - vm_compute. reflexivity.
Defined.

(** ** The call that changes nothing *)

(** X3.  The call returns having changed and logged nothing exactly
    when the glyph has no path or the text to parse is empty. *)
Theorem call_changes_nothing_iff (g : Glyph) :
  ParsePath (Some g) =
    {| ending := Returned tt; glyph := Some g; logged := [] |} <->
  D g = None \/ effective_path g = Some [].
Proof.
  split.
  - intro He. destruct (effective_path g) as [d|] eqn:Hd;
      [|left; exact (effective_path_None g Hd)].
    right. f_equal.
    destruct (ParsePath_cases g d Hd) as [[Hg Hp]|(_ & _ & Hp)];
      rewrite Hp in He; [|discriminate].
    destruct (parse_not_fatal g d (notice g)) as (segs & -> & _ & _ & Hs).
    { intro f. rewrite He. discriminate. }
    rewrite Hs in He. apply (f_equal steps_of) in He.
    rewrite steps_of_validate in He. unfold steps_of in He.
    cbn [glyph PathSteps set_PathSteps] in He.
    rewrite <- (app_nil_r (PathSteps g)) in He at 2.
    apply app_inv_head in He.
    destruct segs; [reflexivity|discriminate].
  - intros [Hd|Hd]; [exact (ParsePath_no_path g Hd)|].
    assert (Ho : overridden g = false).
    { unfold effective_path, overridden in *.
      destruct (D g); [|discriminate].
      destruct (DOrig g) as [[|c o]|]; try reflexivity. discriminate. }
    assert (Hg : reaches_loop g) by (intro H; congruence).
    assert (Hn : notice g = []).
    { unfold notice. rewrite Ho. destruct (Unicode g); reflexivity. }
    rewrite (ParsePath_parse g [] Hd Hg), Hn.
    change [] with (path_text []) at 1.
    rewrite (parse_segments g [] [] (Forall_nil _) (Forall_nil _)).
    cbn [map]. rewrite app_nil_r, set_PathSteps_same.
    apply validate_quiet. cbn. lia.
Qed.

(** ** The steps the call appends *)

(** X4.  However the call ends, the steps of the glyph are the former
    ones followed by steps of one shape: the command is a single byte,
    one of the twenty command letters; a step of z or Z has no
    parameters and every other step has at least one; every parameter
    is finite, neither an infinity nor a NaN. *)
Theorem appended_steps_canonical (g : Glyph) :
  exists new,
    steps_of (ParsePath (Some g)) = PathSteps g ++ new /\
    Forall canonical_step new.
Proof.
  destruct (effective_path g) as [d|] eqn:Hd.
  - destruct (ParsePath_cases g d Hd) as [[Hg Hp]|(_ & _ & Hp)]; rewrite Hp.
    + destruct (parse_outcome g d (notice g))
        as (segs & r & _ & Hv & Hc & Hend).
      exists (map segment_step segs).
      split; [|apply segment_steps_canonical; assumption].
      destruct r as [|c t].
      * rewrite Hend. apply steps_of_validate.
      * destruct Hend as (f & -> & _). reflexivity.
    + exists []. split; [|constructor].
      unfold steps_of. cbn [glyph]. rewrite app_nil_r. reflexivity.
  - rewrite (ParsePath_no_path g (effective_path_None g Hd)).
    exists []. split; [|constructor].
    unfold steps_of. cbn [glyph]. rewrite app_nil_r. reflexivity.
Qed.

(** ** A second call *)

(** X5.  The call does not clear [PathSteps]: on the glyph a call that
    returned has left, a second call returns as well, logs the same
    lines and appends the same steps once more. *)
Theorem second_call_appends_again (g g1 : Glyph) :
  ending (ParsePath (Some g)) = Returned tt ->
  glyph (ParsePath (Some g)) = Some g1 ->
  exists new,
    PathSteps g1 = PathSteps g ++ new /\
    ParsePath (Some g1) =
    {| ending := Returned tt;
       glyph := Some (set_PathSteps g (PathSteps g ++ new ++ new));
       logged := logged (ParsePath (Some g)) |}.
Proof.
  intros He Hg1.
  destruct (ParsePath_old_steps g) as (new & Hold).
  exists new.
  pose proof (Hold (PathSteps g)) as H0.
  rewrite set_PathSteps_same in H0. rewrite H0 in Hg1. cbn [glyph] in Hg1.
  injection Hg1 as <-. split; [reflexivity|].
  rewrite (Hold (PathSteps g ++ new)), He, <- app_assoc. reflexivity.
Qed.

Lemma second_call_appends_again_witness :
  exists new,
    [command_step "M" [value (str "1"); value (str "2")]; command_step "z" []]
    = [] ++ new /\
    ParsePath
      (Some (set_PathSteps (glyph_of None (Some (str "M1,2z")) None None)
               [command_step "M" [value (str "1"); value (str "2")];
                command_step "z" []])) =
    {| ending := Returned tt;
       glyph := Some (set_PathSteps
                        (glyph_of None (Some (str "M1,2z")) None None)
                        ([] ++ new ++ new));
       logged := logged (ParsePath (Some (glyph_of None (Some (str "M1,2z"))
                                                   None None))) |}.
Proof.
  apply (second_call_appends_again
           (glyph_of None (Some (str "M1,2z")) None None)
           (set_PathSteps (glyph_of None (Some (str "M1,2z")) None None)
              [command_step "M" [value (str "1"); value (str "2")];
               command_step "z" []])).
  - vm_compute. reflexivity.
  - reflexivity.
Defined.

(** ** Text that starts with no command letter *)

(** X6.  When the text left after some iterations starts with a byte
    that is none of the twenty command letters, white space included,
    the call ends in [log.Fatalf] with the steps appended so far and
    nothing logged but the override notice; for an ASCII byte the
    message is "Unknown path command" with that text. *)
Theorem no_command_letter_is_fatal (g : Glyph) (d : gostring) (k : nat)
    (st : scanner) (c : ascii) (t : gostring) :
  effective_path g = Some d -> reaches_loop g ->
  advance k (start g d) = Some st -> rest st = c :: t ->
  isCloseLetter c = false -> isCmdLetter c = false ->
  exists f,
    ParsePath (Some g) =
    {| ending := Fatalf f; glyph := Some (set_PathSteps g (steps st));
       logged := notice g |} /\
    ((byteval c < 128)%N -> f = Unknown_path_command (c :: t)).
Proof.
  intros Hd Hg Hk Hr Hz Hl.
  rewrite (ParsePath_parse g d Hd Hg).
  pose proof (advance_length _ _ _ Hk) as Hlen.
  cbn [start rest] in Hlen. rewrite Hr in Hlen.
  assert (Hs : exists f,
             scan (length d) (start g d) = (st, Fatalf f) /\
             ((byteval c < 128)%N -> f = Unknown_path_command (c :: t))).
  { rewrite (scan_advance k (length d) (start g d) st Hk (le_n _)).
    destruct (length d) as [|n]; [cbn in Hlen; lia|].
    cbn [scan]. rewrite Hr.
    destruct (iteration_head st c t Hr)
      as [(Hz' & _)|[(Hl' & _)
                    |(_ & _ & [Hi|(c1 & t1 & Hc & _ & Hi)])]];
      try congruence; rewrite Hi; eexists; (split; [reflexivity|]).
    - reflexivity.
    - intro Ha. lia. }
  destruct Hs as (f & Hs & Hf). exists f.
  split; [apply parse_fatal, Hs|exact Hf].
Qed.

Lemma no_command_letter_is_fatal_witness :
  exists f,
    ParsePath (Some (glyph_of None (Some (str "M1,2  z")) None None)) =
    {| ending := Fatalf f;
       glyph := Some (set_PathSteps
                        (glyph_of None (Some (str "M1,2  z")) None None)
                        [command_step "M" [value (str "1"); value (str "2")]]);
       logged := [] |} /\
    ((byteval " " < 128)%N -> f = Unknown_path_command (str " z")).
Proof.
  apply (no_command_letter_is_fatal
           (glyph_of None (Some (str "M1,2  z")) None None)
           (str "M1,2  z") 1
           {| rest := str " z";
              steps := [command_step "M" [value (str "1"); value (str "2")]];
              numZs := 0 |} " " (str "z")); try reflexivity.
  discriminate.
Defined.

(** ** Concatenation *)

(** X7.  When the call returns on each of two paths it does not end in
    [log.Fatalf] on their concatenation, and the steps it appends for
    it are the steps of the first path followed by the steps of the
    second. *)
Theorem paths_concatenate (g : Glyph) (d1 d2 : gostring) :
  ending (ParsePath_on g d1) = Returned tt ->
  ending (ParsePath_on g d2) = Returned tt ->
  exists new1 new2,
    steps_of (ParsePath_on g d1) = PathSteps g ++ new1 /\
    steps_of (ParsePath_on g d2) = PathSteps g ++ new2 /\
    steps_of (ParsePath_on g (d1 ++ d2)) = PathSteps g ++ new1 ++ new2 /\
    forall f, ending (ParsePath_on g (d1 ++ d2)) <> Fatalf f.
Proof.
  intros H1 H2.
  destruct (ParsePath_on_parse g d1) as (E1 & _ & S1).
  destruct (ParsePath_on_parse g d2) as (E2 & _ & S2).
  destruct (ParsePath_on_parse g (d1 ++ d2)) as (E3 & _ & S3).
  rewrite E1 in H1. rewrite E2 in H2. rewrite S1, S2, S3, E3.
  destruct (parse_not_fatal g d1 []) as (segs1 & -> & Hv1 & Hc1 & P1).
  { intro f. rewrite H1. discriminate. }
  destruct (parse_not_fatal g d2 []) as (segs2 & -> & Hv2 & Hc2 & P2).
  { intro f. rewrite H2. discriminate. }
  exists (map segment_step segs1), (map segment_step segs2).
  rewrite P1, P2, <- path_text_app, parse_segments.
  - rewrite !steps_of_validate, map_app.
    repeat split. intro f. apply validate_not_fatal.
  - apply Forall_app. split; assumption.
  - rewrite path_tokens_app. apply Forall_app. split; assumption.
Qed.

Lemma paths_concatenate_witness :
  exists new1 new2,
    steps_of (ParsePath_on (glyph_of None None None None) (str "M1,2"))
    = [] ++ new1 /\
    steps_of (ParsePath_on (glyph_of None None None None) (str "L3z"))
    = [] ++ new2 /\
    steps_of (ParsePath_on (glyph_of None None None None)
                (str "M1,2" ++ str "L3z")) = [] ++ new1 ++ new2 /\
    forall f, ending (ParsePath_on (glyph_of None None None None)
                        (str "M1,2" ++ str "L3z")) <> Fatalf f.
Proof.
  apply (paths_concatenate (glyph_of None None None None)
           (str "M1,2") (str "L3z")); vm_compute; reflexivity.
Defined.

(** ** The nil dereference *)

(** X8.  The call dereferences a nil pointer exactly on a glyph without
    [Unicode] that has a path and for which a line is to be logged: the
    override is used, or the path is a sequence of commands with more
    than one close command and [GerberLP] is absent or of another
    length.  With [Unicode] present it never does. *)
Theorem nil_dereference_iff (g : Glyph) :
  ending (ParsePath (Some g)) = NilDereference <->
  Unicode g = None /\
  exists d,
    effective_path g = Some d /\
    (overridden g = true \/
     exists segs,
       d = path_text segs /\ Forall valid_segment segs /\
       Forall converts (path_tokens segs) /\
       polarity_differs (GerberLP g) (closings segs) = true).
Proof.
  split.
  - intro He. destruct (effective_path g) as [d|] eqn:Hd.
    + destruct (ParsePath_cases g d Hd) as [[Hg Hp]|(Ho & Hu & _)].
      * rewrite Hp in He.
        destruct (parse_outcome g d (notice g))
          as (segs & r & Hr & Hv & Hc & Hend).
        destruct r as [|c t];
          [|destruct Hend as (f & Hf & _); rewrite Hf in He; discriminate].
        rewrite Hend in He.
        destruct (validate_ending
                    (set_PathSteps g (PathSteps g ++ map segment_step segs))
                    (closings segs) (notice g)) as [E|(_ & Hu & _)];
          [congruence|].
        cbn [Unicode set_PathSteps] in Hu.
        rewrite validate_nil_unicode in He by exact Hu.
        cbn [ending GerberLP set_PathSteps] in He.
        split; [exact Hu|]. exists d. split; [reflexivity|]. right.
        exists segs. rewrite app_nil_r in Hr.
        repeat split; try assumption.
        destruct (polarity_differs _ _); [reflexivity|discriminate].
      * split; [exact Hu|]. exists d. split; [reflexivity|left; exact Ho].
    + rewrite (ParsePath_no_path g (effective_path_None g Hd)) in He.
      discriminate.
  - intros (Hu & d & Hd & H).
    destruct (ParsePath_cases g d Hd) as [[Hg Hp]|(_ & _ & Hp)];
      [|rewrite Hp; reflexivity].
    destruct H as [Ho|(segs & -> & Hv & Hc & Hp')];
      [exfalso; apply (Hg Ho), Hu|].
    rewrite Hp, (parse_segments g segs _ Hv Hc).
    rewrite validate_nil_unicode by exact Hu.
    cbn [ending GerberLP set_PathSteps]. rewrite Hp'. reflexivity.
Qed.

(** ** What a fatal error leaves and reports *)

(** X9.  When the call ends in [log.Fatalf], the text it parsed is a
    sequence of commands followed by a non-empty text on which the next
    iteration failed; the steps of these commands have been appended
    and only the override notice has been logged.  The message is
    "Unknown path command" with the text that was left, or it is the
    message of [atof] for a numeric token that [ParseFloat] rejects with
    [ErrRange], or it is the message of [parseParams] for a text that
    starts with a byte outside ASCII, after a command that starts with
    one. *)
Theorem fatal_after_parsed_prefix (g : Glyph) (d : gostring) (f : fatal) :
  effective_path g = Some d -> ending (ParsePath (Some g)) = Fatalf f ->
  exists segs r,
    d = path_text segs ++ r /\ r <> [] /\
    Forall valid_segment segs /\ Forall converts (path_tokens segs) /\
    steps_of (ParsePath (Some g)) = PathSteps g ++ map segment_step segs /\
    logged (ParsePath (Some g)) = notice g /\
    (f = Unknown_path_command r \/
     (exists tok,
        f = unable_to_parse_as_float64 tok /\ numeric_token tok /\
        snd (ParseFloat tok) = Some ErrRange) \/
     (exists c t c1 t1,
        r = c :: t /\ (128 <= byteval c)%N /\
        f = parseParams_unable_to_parse (c1 :: t1) /\
        (128 <= byteval c1)%N)).
Proof.
  intros Hd He.
  destruct (ParsePath_cases g d Hd) as [[Hg Hp]|(_ & _ & Hp)];
    rewrite Hp in *; [|discriminate].
  destruct (parse_outcome g d (notice g)) as (segs & r & Hr & Hv & Hc & Hend).
  destruct r as [|c t].
  - rewrite Hend in He. exfalso. exact (validate_not_fatal _ _ _ _ He).
  - destruct Hend as (f' & Hf & Hi). rewrite Hf in *. cbn [ending] in He.
    injection He as ->.
    exists segs, (c :: t).
    split; [exact Hr|]. split; [discriminate|].
    repeat split; try assumption.
    exact (iteration_fatal _ f Hi).
Qed.

Lemma fatal_after_parsed_prefix_witness :
  exists segs r,
    str "zM1,2,,3" = path_text segs ++ r /\ r <> [] /\
    Forall valid_segment segs /\ Forall converts (path_tokens segs) /\
    steps_of (ParsePath (Some (glyph_of None (Some (str "zM1,2,,3"))
                                        None None)))
    = [] ++ map segment_step segs /\
    logged (ParsePath (Some (glyph_of None (Some (str "zM1,2,,3")) None None)))
    = [] /\
    (Unknown_path_command (str ",3") = Unknown_path_command r \/
     (exists tok,
        Unknown_path_command (str ",3") = unable_to_parse_as_float64 tok /\
        numeric_token tok /\ snd (ParseFloat tok) = Some ErrRange) \/
     (exists c t c1 t1,
        r = c :: t /\ (128 <= byteval c)%N /\
        Unknown_path_command (str ",3") =
        parseParams_unable_to_parse (c1 :: t1) /\
        (128 <= byteval c1)%N)).
Proof.
  apply (fatal_after_parsed_prefix
           (glyph_of None (Some (str "zM1,2,,3")) None None)
           (str "zM1,2,,3") (Unknown_path_command (str ",3")));
    vm_compute; reflexivity.
Defined.

(** ** [parseParams] on any text *)

(** X10.  [parseParams] reads any text as the longest run of items at
    its head and the text [r] left where numRE matches no more.  When
    every token converts it returns their values if [r] is empty and
    ends in its own [log.Fatalf], with [r], if not; when a token does
    not convert it ends in the [log.Fatalf] of [atof] for the first such
    token, whatever follows. *)
Theorem parseParams_outcome (d : gostring) :
  exists items r,
    d = run_text items ++ r /\ separated items r /\
    FindStringSubmatch numRE r = [] /\
    (Forall converts (map token items) ->
     parseParams d =
     match r with
     | [] => Returned (map value (map token items))
     | _ :: _ => Fatalf (parseParams_unable_to_parse r)
     end) /\
    (forall pre tok post,
       map token items = pre ++ tok :: post ->
       Forall converts pre -> ~ converts tok ->
       parseParams d = Fatalf (unable_to_parse_as_float64 tok)).
Proof.
  destruct (scanRun_sound (length d) d [] (le_n _)) as (items & Hd & Hsep & _).
  pose proof (scanRun_stops (length d) d [] (le_n _)) as Hstop.
  set (r := fst (scanRun (length d) d [])) in *.
  exists items, r. split; [exact Hd|]. split; [exact Hsep|].
  split; [rewrite numRE_match, Hstop; reflexivity|].
  assert (Hp : parseParams d =
               vs <- atofs (map token items) [] ;;
               parseParams_loop (length r) r vs).
  { unfold parseParams. rewrite Hd at 2.
    apply parseParams_loop_run; [exact Hsep|]. rewrite <- Hd. apply le_n. }
  split.
  - intro Hc. rewrite Hp, (atofs_converts _ [] Hc). cbn [bind app].
    destruct r as [|c t] eqn:Er; [reflexivity|].
    cbn [length]. rewrite parseParams_loop_S, Hstop. reflexivity.
  - intros pre tok post E Hpre Htok.
    rewrite Hp, E, (atofs_first_failure pre tok post [] Hpre Htok).
    reflexivity.
Qed.

(** ** The two patterns of the loop *)

(** X11.  No text is matched by both closeRE and cmdRE, so the order in
    which the loop tries them decides nothing. *)
Theorem patterns_exclusive (d : gostring) :
  FindStringSubmatch closeRE d = [] \/ FindStringSubmatch cmdRE d = [].
Proof.
  rewrite closeRE_match. destruct d as [|c t]; [left; reflexivity|].
  destruct (isCloseLetter c) eqn:Hz; [right|left; reflexivity].
  destruct (close_letter_not_cmd c Hz) as [Hl Ha]. apply N.ltb_lt in Ha.
  rewrite (cmdRE_ascii c t Ha), Hl. reflexivity.
Qed.

(** X12.  The three patterns are anchored: a match the loops go on with
    starts at the first byte of the text and is not empty, so the text
    they keep is what follows the match and no text is skipped; the
    slices [d[len(m[0]):]] and [m[0][1:]] are in range. *)
Theorem matched_text_is_prefix (d : gostring) (m : list gostring) :
  (FindStringSubmatch closeRE d = m /\ length m = 2) \/
  (FindStringSubmatch cmdRE d = m /\ 3 <= length m) \/
  (FindStringSubmatch numRE d = m /\ length m = 2) ->
  idx m 0 <> [] /\ d = idx m 0 ++ skipn (length (idx m 0)) d.
Proof.
  intros [[Hm Hl]|[[Hm Hl]|[Hm Hl]]].
  - split; [exact (proj1 (closeRE_consumes d m Hm Hl))|].
    subst m. rewrite closeRE_match in *.
    destruct d as [|c t]; [discriminate|].
    destruct (isCloseLetter c); [|discriminate].
    cbn [idx nth length skipn app]. rewrite skipn_takeWhile, take_drop.
    reflexivity.
  - split; [exact (proj1 (cmdRE_consumes d m Hm Hl))|].
    subst m. rewrite cmdRE_match in *.
    destruct (step d) as [[x d1]|]; [|cbn in Hl; lia].
    destruct (cmatch _ _ x); [|cbn in Hl; lia].
    destruct (scanItem d1) as [[[s1 s2] s3]|]; [|cbn in Hl; lia].
    destruct (scanRun _ _ _) as [sF tok].
    cbn [idx nth]. apply firstn_prefix.
  - split; [exact (proj1 (numRE_consumes d m Hm Hl))|].
    subst m. rewrite numRE_match in *.
    destruct (scanItem d) as [[[s1 s2] s3]|]; [|discriminate].
    cbn [idx nth]. apply firstn_prefix.
Qed.

Lemma matched_text_is_prefix_witness :
  str "z  M1" = str "z  " ++ str "M1" /\
  str "M1 2z" = str "M1 2" ++ str "z" /\
  str " 1,2" = str " 1," ++ str "2".
Proof.
  split; [|split].
  - apply (matched_text_is_prefix (str "z  M1") [str "z  "; str "z"]).
    left. split; reflexivity.
  - apply (matched_text_is_prefix (str "M1 2z")
             [str "M1 2"; str "M"; str "2"]).
    right. left. split; [reflexivity|cbn; lia].
  - apply (matched_text_is_prefix (str " 1,2") [str " 1,"; str "1"]).
    right. right. split; reflexivity.
Defined.
